(** * A shallow embedding of the fid-recycle regression test of
      9fans.net/go/plan9/client (the simulated 9P proxy of conn_test.go),
      of acme.Mount on both builds, and of the client's fid lifecycle and
      message codec as the specification describes them. *)

From Stdlib Require Import Strings.String Strings.Byte NArith.
From stdpp Require Import base gmap list strings.

Open Scope N_scope.

(** ** Protocol messages (package 9fans.net/go/plan9) *)

(** The 9P2000 message types; [Fcall.Type] in Go is a uint8 holding one
    of these constants. *)
Inductive MsgType :=
  | Tversion | Rversion | Tauth | Rauth | Tattach | Rattach | Terror | Rerror
  | Tflush | Rflush | Twalk | Rwalk | Topen | Ropen | Tcreate | Rcreate
  | Tread | Rread | Twrite | Rwrite | Tclunk | Rclunk | Tremove | Rremove
  | Tstat | Rstat | Twstat | Rwstat.

#[global] Instance MsgType_eq_dec : EqDecision MsgType.
Proof. solve_decision. Defined.

(** plan9.Qid: Type is uint8, Vers uint32, Path uint64. *)
Record Qid := { QType : N; Vers : N; Path : N }.

#[global] Instance Qid_eq_dec : EqDecision Qid.
Proof. intros [a b c] [a' b' c']. unfold Decision. decide equality; apply N.eq_dec. Defined.

Definition QTDIR : N := 128.
Definition QTFILE : N := 0.
Definition NOTAG : N := 65535.
Definition NOFID : N := 4294967295.

(** plan9.Fcall, with the fields the proxy and the codec use.  Go's
    [Type] and [Qid] fields are [FType] and [FQid] here ([Type] is a
    keyword and [Qid] the record type). *)
Record Fcall := {
  FType : MsgType; Tag : N; Fid : N; Msize : N; Version : string;
  FQid : Qid; Iounit : N; Afid : N; Uname : string; Aname : string;
  Newfid : N; Wname : list string; Wqid : list Qid; Mode : N;
  Ename : string; Offset : N; Count : N; Data : list byte }.

Definition qid0 : Qid := {| QType := 0; Vers := 0; Path := 0 |}.

(** [&plan9.Fcall{Type: t, Tag: tag}], every other field at its zero value. *)
Definition fcall0 (t : MsgType) (tag : N) : Fcall :=
  {| FType := t; Tag := tag; Fid := 0; Msize := 0; Version := "";
     FQid := qid0; Iounit := 0; Afid := 0; Uname := ""; Aname := "";
     Newfid := 0; Wname := []; Wqid := []; Mode := 0; Ename := "";
     Offset := 0; Count := 0; Data := [] |}.

(** ** The replies built by proxyServer.serve *)

(** [&plan9.Fcall{Type: plan9.Rversion, Tag: plan9.NOTAG, Msize: f.Msize,
    Version: "9P2000"}] *)
Definition rversion (f : Fcall) : Fcall :=
  {| FType := Rversion; Tag := NOTAG; Fid := 0; Msize := Msize f;
     Version := "9P2000"; FQid := qid0; Iounit := 0; Afid := 0; Uname := "";
     Aname := ""; Newfid := 0; Wname := []; Wqid := []; Mode := 0; Ename := "";
     Offset := 0; Count := 0; Data := [] |}.

(** [&plan9.Fcall{Type: plan9.Rattach, Tag: f.Tag, Qid: plan9.Qid{Type: plan9.QTDIR}}] *)
Definition rattach (f : Fcall) : Fcall :=
  {| FType := Rattach; Tag := Tag f; Fid := 0; Msize := 0; Version := "";
     FQid := {| QType := QTDIR; Vers := 0; Path := 0 |}; Iounit := 0;
     Afid := 0; Uname := ""; Aname := ""; Newfid := 0; Wname := []; Wqid := [];
     Mode := 0; Ename := ""; Offset := 0; Count := 0; Data := [] |}.

(** [plan9.Qid{Type: plan9.QTFILE, Path: 1}] *)
Definition file_qid : Qid := {| QType := QTFILE; Vers := 0; Path := 1 |}.

(** [&plan9.Fcall{Type: plan9.Rerror, Tag: f.Tag, Ename: msg}] *)
Definition rerror (f : Fcall) (msg : string) : Fcall :=
  {| FType := Rerror; Tag := Tag f; Fid := 0; Msize := 0; Version := "";
     FQid := qid0; Iounit := 0; Afid := 0; Uname := ""; Aname := "";
     Newfid := 0; Wname := []; Wqid := []; Mode := 0; Ename := msg;
     Offset := 0; Count := 0; Data := [] |}.

(** [wqid := make([]plan9.Qid, len(f.Wname))], every entry set to the file
    qid, then [&plan9.Fcall{Type: plan9.Rwalk, Tag: f.Tag, Wqid: wqid}] *)
Definition rwalk (f : Fcall) : Fcall :=
  {| FType := Rwalk; Tag := Tag f; Fid := 0; Msize := 0; Version := "";
     FQid := qid0; Iounit := 0; Afid := 0; Uname := ""; Aname := "";
     Newfid := 0; Wname := []; Wqid := map (fun _ => file_qid) (Wname f);
     Mode := 0; Ename := ""; Offset := 0; Count := 0; Data := [] |}.

(** [&plan9.Fcall{Type: plan9.Ropen, Tag: f.Tag, Qid: plan9.Qid{Type: plan9.QTFILE, Path: 1}}] *)
Definition ropen (f : Fcall) : Fcall :=
  {| FType := Ropen; Tag := Tag f; Fid := 0; Msize := 0; Version := "";
     FQid := file_qid; Iounit := 0; Afid := 0; Uname := ""; Aname := "";
     Newfid := 0; Wname := []; Wqid := []; Mode := 0; Ename := "";
     Offset := 0; Count := 0; Data := [] |}.

(** [&plan9.Fcall{Type: plan9.Rclunk, Tag: tag}] *)
Definition rclunk (tag : N) : Fcall := fcall0 Rclunk tag.

(** ** The simulated proxy of conn_test.go *)

Module Proxy.

(** Where the serve goroutine is: waiting for the Tversion, for the
    Tattach, in its main loop, or returned (a read failed). *)
Inductive Phase := AwaitVersion | AwaitAttach | Serving | Stopped.

#[global] Instance Phase_eq_dec : EqDecision Phase.
Proof. solve_decision. Defined.

(** One goroutine started by the Tclunk case: it captured [tag] and [fid],
    sleeps [clunkDelay] from [since], deletes the fid and sends Rclunk.
    [ct_req] is ghost: the request the goroutine answers. *)
Record ClunkTask := {
  ct_tag : N; ct_fid : N; ct_since : nat; ct_deleted : bool; ct_req : Fcall }.

(** The proxyServer struct together with the state of its goroutines.
    [fids] is the map[uint32]bool (every stored value is true, so the map
    is the set of its keys); [out] is the buffered channel (capacity 64);
    [pend] is the reply the serve goroutine has built and is about to
    [s.send]; [now] is the clock in milliseconds.  [inlog] (every frame
    read), [written] (every frame the sender wrote) and [log] (each
    [s.send] with the request it answers) are ghost histories. *)
Record Proxy := {
  phase : Phase;
  pend : option (Fcall * Fcall);
  fids : gset N;
  out : list Fcall;
  sender_alive : bool;
  tasks : list ClunkTask;
  clunkSeen : bool;
  now : nat;
  inlog : list Fcall;
  written : list Fcall;
  log : list (Fcall * Fcall) }.

Definition out_cap : nat := 64.

(** [srv := &proxyServer{...}; go srv.serve()]: nothing read yet. *)
Definition init : Proxy :=
  {| phase := AwaitVersion; pend := None; fids := ∅; out := [];
     sender_alive := true; tasks := []; clunkSeen := false; now := 0;
     inlog := []; written := []; log := [] |}.

(** The effect of reading frame [f] in each phase: new phase, new table,
    the reply to send (if any) and the goroutine to start (if any). *)
Definition on_read (s : Proxy) (f : Fcall)
    : Phase * gset N * option Fcall * option ClunkTask * bool :=
  match phase s with
  | AwaitVersion => (AwaitAttach, fids s, Some (rversion f), None, clunkSeen s)
  | AwaitAttach => (Serving, {[Fid f]} ∪ fids s, Some (rattach f), None, clunkSeen s)
  | _ =>
    match FType f with
    | Twalk =>
        let dup := bool_decide (Newfid f ∈ fids s) && negb (bool_decide (Newfid f = Fid f)) in
        if dup then (Serving, fids s, Some (rerror f "duplicate fid"), None, clunkSeen s)
        else (Serving, {[Newfid f]} ∪ fids s, Some (rwalk f), None, clunkSeen s)
    | Topen => (Serving, fids s, Some (ropen f), None, clunkSeen s)
    | Tclunk =>
        (Serving, fids s, None,
         Some {| ct_tag := Tag f; ct_fid := Fid f; ct_since := now s;
                 ct_deleted := false; ct_req := f |}, true)
    | _ => (Serving, fids s, Some (rerror f "not supported"), None, clunkSeen s)
    end
  end.

Definition can_read (s : Proxy) : Prop :=
  phase s ≠ Stopped ∧ pend s = None.

Definition after_read (s : Proxy) (f : Fcall) : Proxy :=
  match on_read s f with
  | (ph, fs, rep, task, seen) =>
    {| phase := ph; pend := (fun r => (f, r)) <$> rep; fids := fs; out := out s;
       sender_alive := sender_alive s;
       tasks := tasks s ++ option_list task; clunkSeen := seen; now := now s;
       inlog := inlog s ++ [f]; written := written s; log := log s |}
  end.

(** [serve] returns after a failed read. *)
Definition after_read_fail (s : Proxy) : Proxy :=
  {| phase := Stopped; pend := None; fids := fids s; out := out s;
     sender_alive := sender_alive s; tasks := tasks s;
     clunkSeen := clunkSeen s; now := now s; inlog := inlog s;
     written := written s; log := log s |}.

(** [s.send(r)] by serve, answering [q]: [s.out <- r]. *)
Definition after_send (s : Proxy) (q r : Fcall) : Proxy :=
  {| phase := phase s; pend := None; fids := fids s; out := out s ++ [r];
     sender_alive := sender_alive s; tasks := tasks s;
     clunkSeen := clunkSeen s; now := now s; inlog := inlog s;
     written := written s; log := log s ++ [(q, r)] |}.

(** Goroutine [i] after [time.Sleep]: [delete(s.fids, fid)] under the lock. *)
Definition after_task_delete (s : Proxy) (i : nat) (t : ClunkTask) : Proxy :=
  {| phase := phase s; pend := pend s; fids := fids s ∖ {[ct_fid t]};
     out := out s; sender_alive := sender_alive s;
     tasks := <[i := {| ct_tag := ct_tag t; ct_fid := ct_fid t;
                        ct_since := ct_since t; ct_deleted := true;
                        ct_req := ct_req t |}]> (tasks s);
     clunkSeen := clunkSeen s; now := now s; inlog := inlog s;
     written := written s; log := log s |}.

(** Goroutine [i]: [s.send(&plan9.Fcall{Type: plan9.Rclunk, Tag: tag})],
    then it returns. *)
Definition after_task_send (s : Proxy) (i : nat) (t : ClunkTask) : Proxy :=
  {| phase := phase s; pend := pend s; fids := fids s;
     out := out s ++ [rclunk (ct_tag t)]; sender_alive := sender_alive s;
     tasks := delete i (tasks s); clunkSeen := clunkSeen s; now := now s;
     inlog := inlog s; written := written s;
     log := log s ++ [(ct_req t, rclunk (ct_tag t))] |}.

(** The sender takes the head of [s.out] and writes it; [ok] is whether
    [plan9.WriteFcall] succeeded (on failure the sender returns). *)
Definition after_write (s : Proxy) (g : Fcall) (rest : list Fcall) (ok : bool) : Proxy :=
  {| phase := phase s; pend := pend s; fids := fids s; out := rest;
     sender_alive := ok; tasks := tasks s; clunkSeen := clunkSeen s;
     now := now s; inlog := inlog s;
     written := if ok then written s ++ [g] else written s; log := log s |}.

Definition after_tick (s : Proxy) : Proxy :=
  {| phase := phase s; pend := pend s; fids := fids s; out := out s;
     sender_alive := sender_alive s; tasks := tasks s;
     clunkSeen := clunkSeen s; now := S (now s); inlog := inlog s;
     written := written s; log := log s |}.

Inductive Label :=
  | LRead (f : Fcall)      (* s.read() returns f *)
  | LReadFail              (* s.read() returns nil: serve returns *)
  | LSend                  (* serve's s.send(reply) *)
  | LTaskDelete (i : nat)  (* goroutine i wakes and deletes its fid *)
  | LTaskSend (i : nat)    (* goroutine i sends Rclunk *)
  | LWrite (g : Fcall)     (* sender writes g to the conn *)
  | LWriteFail             (* WriteFcall fails: sender returns *)
  | LTick.                 (* one millisecond passes *)

Section Step.
Variable clunkDelay : nat.

Inductive step : Proxy → Label → Proxy → Prop :=
  | st_read s f :
      can_read s → step s (LRead f) (after_read s f)
  | st_read_fail s :
      can_read s → step s LReadFail (after_read_fail s)
  | st_send s q r :
      pend s = Some (q, r) → (length (out s) < out_cap)%nat →
      step s LSend (after_send s q r)
  | st_task_delete s i t :
      tasks s !! i = Some t → ct_deleted t = false →
      (ct_since t + clunkDelay ≤ now s)%nat →
      step s (LTaskDelete i) (after_task_delete s i t)
  | st_task_send s i t :
      tasks s !! i = Some t → ct_deleted t = true →
      (length (out s) < out_cap)%nat →
      step s (LTaskSend i) (after_task_send s i t)
  | st_write s g rest :
      sender_alive s = true → out s = g :: rest →
      step s (LWrite g) (after_write s g rest true)
  | st_write_fail s g rest :
      sender_alive s = true → out s = g :: rest →
      step s LWriteFail (after_write s g rest false)
  | st_tick s :
      step s LTick (after_tick s).

Definition reachable : Proxy → Prop :=
  rtc (λ s s', ∃ l, step s l s') init.

End Step.

End Proxy.

(** ** acme.Mount (src/acme/acme_p9p.go and src/acme/acme_plan9.go) *)

Module Acme.

(** A [*client.Fsys] as far as Mount sees it: its mount point. *)
Record ClientFsys := { Mtpt : string }.

(** [acme.Fsys{fs: fs}]; [fs] is a pointer into the client.Fsys heap
    ([None] is nil). *)
Record Fsys := { fs : option nat }.

(** The result of [client.MountService]: a fresh connection, or an error. *)
Inductive MountResult := MSOk (p : nat) | MSErr (e : string).

(** The package globals [defaultFsys], [defaultErr] and [defaultOnce]
    (declared in acme.go), the two heaps of objects built with [&...]
    (pointers are indices), and the list of names MountService was
    called with. *)
Record World := {
  defaultFsys : option nat;
  defaultErr : option string;
  once_done : bool;
  cheap : list ClientFsys;
  aheap : list Fsys;
  dials : list string }.

Definition world0 : World :=
  {| defaultFsys := None; defaultErr := None; once_done := false;
     cheap := []; aheap := []; dials := [] |}.

(** The state monad the Go code runs in. *)
Definition M (A : Type) : Type := World → A * World.
#[global] Instance M_ret : MRet M := λ A a w, (a, w).
#[global] Instance M_bind : MBind M := λ A B k m w, let '(a, w') := m w in k a w'.
Definition ret {A} : A → M A := mret.

(** [&Fsys{fs: p}] *)
Definition new_fsys (p : option nat) : M nat :=
  λ w, (length (aheap w),
        {| defaultFsys := defaultFsys w; defaultErr := defaultErr w;
           once_done := once_done w; cheap := cheap w;
           aheap := aheap w ++ [{| fs := p |}]; dials := dials w |}).

(** [&client.Fsys{Mtpt: m}] *)
Definition new_client_fsys (m : string) : M nat :=
  λ w, (length (cheap w),
        {| defaultFsys := defaultFsys w; defaultErr := defaultErr w;
           once_done := once_done w; cheap := cheap w ++ [{| Mtpt := m |}];
           aheap := aheap w; dials := dials w |}).

Definition set_defaultFsys (p : option nat) : M unit :=
  λ w, (tt, {| defaultFsys := p; defaultErr := defaultErr w;
               once_done := once_done w; cheap := cheap w; aheap := aheap w;
               dials := dials w |}).

(** [defaultErr = err] *)
Definition set_defaultErr (e : option string) : M unit :=
  λ w, (tt, {| defaultFsys := defaultFsys w; defaultErr := e;
               once_done := once_done w; cheap := cheap w; aheap := aheap w;
               dials := dials w |}).

Definition get_defaultFsys : M (option nat) := λ w, (defaultFsys w, w).

(** [defaultOnce.Do(f)]: runs [f] the first time only. *)
Definition once_do (f : M unit) : M unit :=
  λ w, if once_done w then (tt, w)
       else f {| defaultFsys := defaultFsys w; defaultErr := defaultErr w;
                 once_done := true; cheap := cheap w; aheap := aheap w;
                 dials := dials w |}.

Module P9P.
Section P9P.
(** What [client.MountService] returns at its n-th call (the dialled
    service is outside this package). *)
Variable mount_oracle : nat → MountResult.

Definition MountService (name : string) : M MountResult :=
  λ w, (mount_oracle (length (dials w)),
        {| defaultFsys := defaultFsys w; defaultErr := defaultErr w;
           once_done := once_done w; cheap := cheap w; aheap := aheap w;
           dials := dials w ++ [name] |}).

(** func Mount() ( *Fsys, error) *)
Definition Mount : M (option nat * option string) :=
  r ← MountService "acme";
  match r with
  | MSErr e => ret (None, Some e)
  | MSOk fs => p ← new_fsys (Some fs); ret (Some p, None)
  end.

(** func mountAcme(), which defaultOnce runs once (acme.go, not among the
    files given, calls [defaultOnce.Do(mountAcme)]). *)
Definition mountAcme : M unit :=
  r ← MountService "acme";
  match r with
  | MSErr e => set_defaultErr (Some e)
  | MSOk fs => p ← new_fsys (Some fs); set_defaultFsys (Some p)
  end.

(** [n] successive calls to Mount, with their results. *)
Fixpoint mounts (n : nat) : M (list (option nat * option string)) :=
  match n with
  | O => ret []
  | S n' => r ← Mount; rs ← mounts n'; ret (r :: rs)
  end.
End P9P.
End P9P.

(** [n] successive runs of [f]. *)
Fixpoint do_times (n : nat) (f : M unit) : M unit :=
  match n with
  | O => ret tt
  | S n' => _ ← f; do_times n' f
  end.

Module Plan9.
(** func mountAcme() *)
Definition mountAcme : M unit :=
  c ← new_client_fsys "/mnt/acme";
  a ← new_fsys (Some c);
  set_defaultFsys (Some a).

(** func Mount() ( *Fsys, error) *)
Definition Mount : M (option nat * option string) :=
  _ ← once_do mountAcme;
  d ← get_defaultFsys;
  ret (d, None).

(** [n] successive calls to Mount, with their results. *)
Fixpoint mounts (n : nat) : M (list (option nat * option string)) :=
  match n with
  | O => ret []
  | S n' => r ← Mount; rs ← mounts n'; ret (r :: rs)
  end.

(** The mount point of the acme.Fsys at pointer [a]. *)
Definition mtpt_of (w : World) (a : nat) : option string :=
  f ← aheap w !! a; c ← fs f; cf ← cheap w !! c; Some (Mtpt cf).
End Plan9.

End Acme.

(** ** The message codec (plan9.MarshalFcall / plan9.UnmarshalFcall) *)

Module Codec.

(** Modelled from the spec: the Message Codec of package plan9, whose
    source is not among the files given.  Section 4.1 and 6 of the spec:
    a message is a length-prefixed record carrying its total length, a
    type discriminant, a tag and type-specific fields; decoding rejects a
    truncated record, an unknown discriminant, and a record whose
    declared length does not match the bytes consumed.  The layout is the
    9P2000 one (little-endian integers, strings and data with a length
    prefix, a qid as type[1] vers[4] path[8]), for the message types of
    the spec's wire table (version, attach, walk, open, clunk, error)
    and read and write; any other discriminant is rejected. *)

Definition byte_of_N (n : N) : byte :=
  match Byte.of_N (n mod 256) with Some b => b | None => x00 end.

(** [w]-byte little-endian encoding of [n mod 256^w]. *)
Fixpoint put_le (w : nat) (n : N) : list byte :=
  match w with
  | O => []
  | S w' => byte_of_N n :: put_le w' (n / 256)
  end.

Fixpoint get_le (w : nat) (b : list byte) : option (N * list byte) :=
  match w with
  | O => Some (0, b)
  | S w' =>
    match b with
    | [] => None
    | x :: r =>
      match get_le w' r with
      | Some (n, r') => Some (Byte.to_N x + 256 * n, r')
      | None => None
      end
    end
  end.

Definition get_bytes (n : nat) (b : list byte) : option (list byte * list byte) :=
  if decide (n ≤ length b)%nat then Some (take n b, drop n b) else None.

(** s[2]: a 2-byte length, then the bytes *)
Definition put_str (s : string) : list byte :=
  put_le 2 (N.of_nat (length (list_byte_of_string s))) ++ list_byte_of_string s.

Definition get_str (b : list byte) : option (string * list byte) :=
  '(n, r) ← get_le 2 b;
  '(bs, r') ← get_bytes (N.to_nat n) r;
  Some (string_of_list_byte bs, r').

(** count[4] data[count] *)
Definition put_data (d : list byte) : list byte :=
  put_le 4 (N.of_nat (length d)) ++ d.

Definition get_data (b : list byte) : option (list byte * list byte) :=
  '(n, r) ← get_le 4 b; get_bytes (N.to_nat n) r.

Definition put_qid (q : Qid) : list byte :=
  put_le 1 (QType q) ++ put_le 4 (Vers q) ++ put_le 8 (Path q).

Definition get_qid (b : list byte) : option (Qid * list byte) :=
  '(t, r) ← get_le 1 b; '(v, r) ← get_le 4 r; '(p, r) ← get_le 8 r;
  Some ({| QType := t; Vers := v; Path := p |}, r).

(** [n] items, each read by [p] *)
Fixpoint get_many {A} (p : list byte → option (A * list byte)) (n : nat)
    (b : list byte) : option (list A * list byte) :=
  match n with
  | O => Some ([], b)
  | S n' => '(x, r) ← p b; '(xs, r') ← get_many p n' r; Some (x :: xs, r')
  end.

Definition code_of (t : MsgType) : N :=
  match t with
  | Tversion => 100 | Rversion => 101 | Tauth => 102 | Rauth => 103
  | Tattach => 104 | Rattach => 105 | Terror => 106 | Rerror => 107
  | Tflush => 108 | Rflush => 109 | Twalk => 110 | Rwalk => 111
  | Topen => 112 | Ropen => 113 | Tcreate => 114 | Rcreate => 115
  | Tread => 116 | Rread => 117 | Twrite => 118 | Rwrite => 119
  | Tclunk => 120 | Rclunk => 121 | Tremove => 122 | Rremove => 123
  | Tstat => 124 | Rstat => 125 | Twstat => 126 | Rwstat => 127
  end.

(** The discriminants this codec knows. *)
Definition type_of_code (c : N) : option MsgType :=
  match c with
  | 100 => Some Tversion | 101 => Some Rversion
  | 104 => Some Tattach | 105 => Some Rattach | 107 => Some Rerror
  | 110 => Some Twalk | 111 => Some Rwalk | 112 => Some Topen
  | 113 => Some Ropen | 116 => Some Tread | 117 => Some Rread
  | 118 => Some Twrite | 119 => Some Rwrite | 120 => Some Tclunk
  | 121 => Some Rclunk
  | _ => None
  end.

(** The type-specific fields of a message. *)
Definition enc_body (f : Fcall) : option (list byte) :=
  match FType f with
  | Tversion | Rversion => Some (put_le 4 (Msize f) ++ put_str (Version f))
  | Tattach => Some (put_le 4 (Fid f) ++ put_le 4 (Afid f) ++
                     put_str (Uname f) ++ put_str (Aname f))
  | Rattach => Some (put_qid (FQid f))
  | Rerror => Some (put_str (Ename f))
  | Twalk => Some (put_le 4 (Fid f) ++ put_le 4 (Newfid f) ++
                   put_le 2 (N.of_nat (length (Wname f))) ++
                   mjoin (map put_str (Wname f)))
  | Rwalk => Some (put_le 2 (N.of_nat (length (Wqid f))) ++
                   mjoin (map put_qid (Wqid f)))
  | Topen => Some (put_le 4 (Fid f) ++ put_le 1 (Mode f))
  | Ropen => Some (put_qid (FQid f) ++ put_le 4 (Iounit f))
  | Tread => Some (put_le 4 (Fid f) ++ put_le 8 (Offset f) ++ put_le 4 (Count f))
  | Rread => Some (put_data (Data f))
  | Twrite => Some (put_le 4 (Fid f) ++ put_le 8 (Offset f) ++ put_data (Data f))
  | Rwrite => Some (put_le 4 (Count f))
  | Tclunk => Some (put_le 4 (Fid f))
  | Rclunk => Some []
  | _ => None
  end.

(** size[4] type[1] tag[2] body *)
Definition encode (f : Fcall) : option (list byte) :=
  body ← enc_body f;
  Some (put_le 4 (N.of_nat (7 + length body)) ++ put_le 1 (code_of (FType f)) ++
        put_le 2 (Tag f) ++ body).

(** [Build_Fcall] takes the fields in the order FType Tag Fid Msize
    Version FQid Iounit Afid Uname Aname Newfid Wname Wqid Mode Ename
    Offset Count Data. *)
Definition dec_body (t : MsgType) (tag : N) (b : list byte)
    : option (Fcall * list byte) :=
  match t with
  | Tversion | Rversion =>
      '(ms, r) ← get_le 4 b; '(v, r) ← get_str r;
      Some (Build_Fcall t tag 0 ms v qid0 0 0 "" "" 0 [] [] 0 "" 0 0 [], r)
  | Tattach =>
      '(fid, r) ← get_le 4 b; '(afid, r) ← get_le 4 r;
      '(u, r) ← get_str r; '(a, r) ← get_str r;
      Some (Build_Fcall t tag fid 0 "" qid0 0 afid u a 0 [] [] 0 "" 0 0 [], r)
  | Rattach =>
      '(q, r) ← get_qid b;
      Some (Build_Fcall t tag 0 0 "" q 0 0 "" "" 0 [] [] 0 "" 0 0 [], r)
  | Rerror =>
      '(e, r) ← get_str b;
      Some (Build_Fcall t tag 0 0 "" qid0 0 0 "" "" 0 [] [] 0 e 0 0 [], r)
  | Twalk =>
      '(fid, r) ← get_le 4 b; '(nf, r) ← get_le 4 r; '(n, r) ← get_le 2 r;
      '(ws, r) ← get_many get_str (N.to_nat n) r;
      Some (Build_Fcall t tag fid 0 "" qid0 0 0 "" "" nf ws [] 0 "" 0 0 [], r)
  | Rwalk =>
      '(n, r) ← get_le 2 b; '(qs, r) ← get_many get_qid (N.to_nat n) r;
      Some (Build_Fcall t tag 0 0 "" qid0 0 0 "" "" 0 [] qs 0 "" 0 0 [], r)
  | Topen =>
      '(fid, r) ← get_le 4 b; '(m, r) ← get_le 1 r;
      Some (Build_Fcall t tag fid 0 "" qid0 0 0 "" "" 0 [] [] m "" 0 0 [], r)
  | Ropen =>
      '(q, r) ← get_qid b; '(io, r) ← get_le 4 r;
      Some (Build_Fcall t tag 0 0 "" q io 0 "" "" 0 [] [] 0 "" 0 0 [], r)
  | Tread =>
      '(fid, r) ← get_le 4 b; '(o, r) ← get_le 8 r; '(c, r) ← get_le 4 r;
      Some (Build_Fcall t tag fid 0 "" qid0 0 0 "" "" 0 [] [] 0 "" o c [], r)
  | Rread =>
      '(d, r) ← get_data b;
      Some (Build_Fcall t tag 0 0 "" qid0 0 0 "" "" 0 [] [] 0 "" 0 0 d, r)
  | Twrite =>
      '(fid, r) ← get_le 4 b; '(o, r) ← get_le 8 r; '(d, r) ← get_data r;
      Some (Build_Fcall t tag fid 0 "" qid0 0 0 "" "" 0 [] [] 0 "" o 0 d, r)
  | Rwrite =>
      '(c, r) ← get_le 4 b;
      Some (Build_Fcall t tag 0 0 "" qid0 0 0 "" "" 0 [] [] 0 "" 0 c [], r)
  | Tclunk =>
      '(fid, r) ← get_le 4 b;
      Some (Build_Fcall t tag fid 0 "" qid0 0 0 "" "" 0 [] [] 0 "" 0 0 [], r)
  | Rclunk => Some (Build_Fcall t tag 0 0 "" qid0 0 0 "" "" 0 [] [] 0 "" 0 0 [], b)
  | _ => None
  end.

(** A whole frame: the declared size must be the frame's length, the
    discriminant known, and the body must use up the frame exactly. *)
Definition decode (b : list byte) : option Fcall :=
  '(size, r) ← get_le 4 b;
  if decide (size = N.of_nat (length b)) then
    '(c, r) ← get_le 1 r; t ← type_of_code c; '(tag, r) ← get_le 2 r;
    '(f, r) ← dec_body t tag r;
    match r with [] => Some f | _ => None end
  else None.

End Codec.

(** ** The client's fid lifecycle *)

Module FidMgr.

(** Modelled from the spec: the Fid Lifecycle Manager of package
    plan9/client (conn.go and fid.go are not among the files given).
    Section 3 and 4.3 of the spec: a number is [allocated], [active] or
    [retiring], or free; [allocate] reuses a freed number when there is
    one and otherwise takes the next unused number; [markActive],
    [beginRetire] and [confirmRetire] move one number along; a failed
    attach or walk frees its number at once (4.4); [abortOnDisconnect]
    frees every number.  A transition whose precondition fails is caller
    misuse and changes nothing. *)
Inductive FidState := Allocated | Active | Retiring.

#[global] Instance FidState_eq_dec : EqDecision FidState.
Proof. solve_decision. Defined.

Record Mgr := { fstate : gmap N FidState; freefid : list N; nextfid : N }.

Definition mgr0 : Mgr := {| fstate := ∅; freefid := []; nextfid := 0 |}.

Definition allocate (m : Mgr) : N * Mgr :=
  match freefid m with
  | x :: rest => (x, {| fstate := <[x := Allocated]> (fstate m); freefid := rest;
                        nextfid := nextfid m |})
  | [] => (nextfid m, {| fstate := <[nextfid m := Allocated]> (fstate m);
                         freefid := []; nextfid := nextfid m + 1 |})
  end.

(** Move [x] from state [from] to state [to]. *)
Definition move (from to : FidState) (x : N) (m : Mgr) : option Mgr :=
  if decide (fstate m !! x = Some from)
  then Some {| fstate := <[x := to]> (fstate m); freefid := freefid m;
               nextfid := nextfid m |}
  else None.

(** Free [x], which must be in state [from]. *)
Definition free (from : FidState) (x : N) (m : Mgr) : option Mgr :=
  if decide (fstate m !! x = Some from)
  then Some {| fstate := delete x (fstate m); freefid := x :: freefid m;
               nextfid := nextfid m |}
  else None.

Definition markActive := move Allocated Active.
Definition releaseFailed := free Allocated.
Definition beginRetire := move Active Retiring.
Definition confirmRetire := free Retiring.

Definition abortOnDisconnect (m : Mgr) : Mgr :=
  {| fstate := ∅; freefid := elements (dom (fstate m)) ++ freefid m;
     nextfid := nextfid m |}.

Inductive Op :=
  | OAllocate | OMarkActive (x : N) | OReleaseFailed (x : N)
  | OBeginRetire (x : N) | OConfirmRetire (x : N) | OAbort.

Inductive Outcome := Got (x : N) | Done | Misuse.

#[global] Instance Op_eq_dec : EqDecision Op.
Proof. solve_decision. Defined.
#[global] Instance Outcome_eq_dec : EqDecision Outcome.
Proof. solve_decision. Defined.

Definition of_opt (m : Mgr) (r : option Mgr) : Outcome * Mgr :=
  match r with Some m' => (Done, m') | None => (Misuse, m) end.

Definition apply_op (m : Mgr) (o : Op) : Outcome * Mgr :=
  match o with
  | OAllocate => let '(x, m') := allocate m in (Got x, m')
  | OMarkActive x => of_opt m (markActive x m)
  | OReleaseFailed x => of_opt m (releaseFailed x m)
  | OBeginRetire x => of_opt m (beginRetire x m)
  | OConfirmRetire x => of_opt m (confirmRetire x m)
  | OAbort => (Done, abortOnDisconnect m)
  end.

(** The outcome of every operation of a sequence, and the final state. *)
Fixpoint run (m : Mgr) (ops : list Op) : list Outcome * Mgr :=
  match ops with
  | [] => ([], m)
  | o :: rest =>
    let '(r, m1) := apply_op m o in
    let '(rs, m2) := run m1 rest in (r :: rs, m2)
  end.

End FidMgr.

(** ** A client on one connection to the proxy *)

Module Sys.
Import Proxy FidMgr.

(** Modelled from the spec: the Tag Multiplexer and Session API of
    package plan9/client (not among the files given), sections 4.2 and
    4.4.  A walk allocates the new fid and sends Twalk; an open sends
    Topen; a close calls [beginRetire] and sends Tclunk; each request
    takes a tag that no pending request holds.  The single reader
    delivers each response to the request with its tag: Rwalk marks the
    new fid active and an error frees it, Rclunk calls [confirmRetire].
    [to_srv] holds the requests whose writers wait for the pipe, in the
    order they took the write lock. *)
Inductive Pending := PWalk (newfid : N) | POpen | PClunk (fid : N).

#[global] Instance Pending_eq_dec : EqDecision Pending.
Proof. solve_decision. Defined.

Record Client := { mgr : Mgr; pending : gmap N Pending; to_srv : list Fcall }.

Record Sys := { cl : Client; px : Proxy }.

Definition twalk (tag fid newfid : N) (names : list string) : Fcall :=
  Build_Fcall Twalk tag fid 0 "" qid0 0 0 "" "" newfid names [] 0 "" 0 0 [].
Definition topen (tag fid mode : N) : Fcall :=
  Build_Fcall Topen tag fid 0 "" qid0 0 0 "" "" 0 [] [] mode "" 0 0 [].
Definition tclunk (tag fid : N) : Fcall :=
  Build_Fcall Tclunk tag fid 0 "" qid0 0 0 "" "" 0 [] [] 0 "" 0 0 [].
Definition tversion (msize : N) : Fcall :=
  Build_Fcall Tversion NOTAG 0 msize "9P2000" qid0 0 0 "" "" 0 [] [] 0 "" 0 0 [].
Definition tattach (tag fid : N) (uname : string) : Fcall :=
  Build_Fcall Tattach tag fid 0 "" qid0 0 NOFID uname "" 0 [] [] 0 "" 0 0 [].

(** The reader's handling of a response for the pending request [k]. *)
Definition deliver (k : Pending) (g : Fcall) (m : Mgr) : Mgr :=
  match k with
  | PWalk x =>
      if decide (FType g = Rwalk) then default m (markActive x m)
      else default m (releaseFailed x m)
  | POpen => m
  | PClunk x => default m (confirmRetire x m)
  end.

Definition with_client (s : Sys) (c : Client) : Sys := {| cl := c; px := px s |}.

Inductive sys_step : Sys → Sys → Prop :=
  | sy_walk s src names t x m' :
      fstate (mgr (cl s)) !! src = Some Active →
      pending (cl s) !! t = None → t ≠ NOTAG →
      allocate (mgr (cl s)) = (x, m') →
      sys_step s (with_client s
        {| mgr := m'; pending := <[t := PWalk x]> (pending (cl s));
           to_srv := to_srv (cl s) ++ [twalk t src x names] |})
  | sy_open s fid mode t :
      fstate (mgr (cl s)) !! fid = Some Active →
      pending (cl s) !! t = None → t ≠ NOTAG →
      sys_step s (with_client s
        {| mgr := mgr (cl s); pending := <[t := POpen]> (pending (cl s));
           to_srv := to_srv (cl s) ++ [topen t fid mode] |})
  | sy_close s fid t m' :
      beginRetire fid (mgr (cl s)) = Some m' →
      pending (cl s) !! t = None → t ≠ NOTAG →
      sys_step s (with_client s
        {| mgr := m'; pending := <[t := PClunk fid]> (pending (cl s));
           to_srv := to_srv (cl s) ++ [tclunk t fid] |})
  (** the proxy reads the first waiting request off the pipe *)
  | sy_read s f rest p' :
      to_srv (cl s) = f :: rest → step 5 (px s) (LRead f) p' →
      sys_step s {| cl := {| mgr := mgr (cl s); pending := pending (cl s);
                             to_srv := rest |}; px := p' |}
  (** the proxy's sender writes [g] and the client's reader takes it *)
  | sy_deliver s g k p' :
      step 5 (px s) (LWrite g) p' → pending (cl s) !! Tag g = Some k →
      sys_step s {| cl := {| mgr := deliver k g (mgr (cl s));
                             pending := delete (Tag g) (pending (cl s));
                             to_srv := to_srv (cl s) |}; px := p' |}
  (** any other step of the proxy (clunkDelay is 5ms, as in the test) *)
  | sy_proxy s l p' :
      (∀ f, l ≠ LRead f) → (∀ g, l ≠ LWrite g) → step 5 (px s) l p' →
      sys_step s {| cl := cl s; px := p' |}.

(** The proxy after [NewConn] and [Attach(nil, "nobody", "")]: version
    and attach exchanged, root fid 0 live. *)
Definition px_attached : Proxy :=
  let p1 := after_read init (tversion 8192) in
  let p2 := after_send p1 (tversion 8192) (rversion (tversion 8192)) in
  let p3 := after_write p2 (rversion (tversion 8192)) [] true in
  let p4 := after_read p3 (tattach 0 0 "nobody") in
  let p5 := after_send p4 (tattach 0 0 "nobody") (rattach (tattach 0 0 "nobody")) in
  after_write p5 (rattach (tattach 0 0 "nobody")) [] true.

Definition sys0 : Sys :=
  {| cl := {| mgr := {| fstate := {[0 := Active]}; freefid := []; nextfid := 1 |};
              pending := ∅; to_srv := [] |};
     px := px_attached |}.

End Sys.

(** * Properties of the proxy *)

Module ProxyFacts.
Import Proxy.

Ltac inv_step H := inversion H; subst; clear H.

(** ** The main loop's Twalk and default cases *)

(** C3 (amended).  A Twalk read in the main loop (after the version and
    attach messages) is answered with Rerror "duplicate fid", the table
    unchanged, exactly when its newFid is in the table and differs from
    its fid; otherwise newFid is added to the table and the reply is an
    Rwalk. *)
Theorem serve_walk_dup_rule d s f s' :
  step d s (LRead f) s' → phase s = Serving → FType f = Twalk →
  ((Newfid f ∈ fids s ∧ Newfid f ≠ Fid f) →
     pend s' = Some (f, rerror f "duplicate fid") ∧ fids s' = fids s) ∧
  (¬ (Newfid f ∈ fids s ∧ Newfid f ≠ Fid f) →
     pend s' = Some (f, rwalk f) ∧ fids s' = {[Newfid f]} ∪ fids s).
Proof.
  intros Hs Hph Ht. inv_step Hs.
  unfold after_read, on_read. rewrite Hph, Ht.
  split.
  - intros [Hin Hne].
    rewrite (bool_decide_eq_true_2 _ Hin), (bool_decide_eq_false_2 _ Hne). done.
  - intros Hnd.
    destruct (bool_decide (Newfid f ∈ fids s)) eqn:E1; [|done].
    apply bool_decide_eq_true_1 in E1.
    destruct (bool_decide (Newfid f = Fid f)) eqn:E2; [done|].
    apply bool_decide_eq_false_1 in E2. tauto.
Qed.

(** C9.  A request read in the main loop whose type is not Twalk, Topen
    or Tclunk is answered with an Rerror carrying its tag and the text
    "not supported", and the fid table is left as it was. *)
Theorem serve_rejects_unsupported d s f s' :
  step d s (LRead f) s' → phase s = Serving →
  FType f ≠ Twalk → FType f ≠ Topen → FType f ≠ Tclunk →
  ∃ r, pend s' = Some (f, r) ∧ FType r = Rerror ∧ Tag r = Tag f ∧
       Ename r = "not supported" ∧ fids s' = fids s ∧ tasks s' = tasks s.
Proof.
  intros Hs Hph H1 H2 H3. inv_step Hs.
  unfold after_read, on_read. rewrite Hph.
  destruct (FType f); try congruence; eexists; simpl;
    (split; [reflexivity|]); rewrite ?app_nil_r; repeat split.
Qed.


(** ** An invariant of every reachable state *)

(** [r] is a reply the code builds for request [q]. *)
Definition reply_ok (q r : Fcall) : Prop :=
  (FType r ≠ Rversion → Tag r = Tag q) ∧
  (FType r = Rversion → r = rversion q) ∧
  (FType r = Rwalk → Wqid r = map (λ _, file_qid) (Wname q)).

Record pinv (s : Proxy) : Prop := {
  pi_pend : ∀ q r, pend s = Some (q, r) → reply_ok q r ∧ FType r ≠ Rclunk;
  pi_tasks : Forall (λ t, ct_tag t = Tag (ct_req t)) (tasks s);
  pi_log : Forall (λ qr, reply_ok qr.1 qr.2) (log s);
  pi_wire_alive : sender_alive s = true → map snd (log s) = written s ++ out s;
  pi_wire : written s `prefix_of` map snd (log s);
  pi_phase : phase s = AwaitAttach ∨ phase s = Serving → inlog s ≠ [];
  pi_v1 : phase s = AwaitVersion → inlog s = [];
  pi_v2 : inlog s = [] → log s = [] ∧ pend s = None ∧ tasks s = [];
  pi_v3 : ∀ q rest, inlog s = q :: rest →
            match log s with
            | [] => pend s = Some (q, rversion q) ∧ tasks s = []
            | e :: _ => e = (q, rversion q)
            end }.

Lemma on_read_spec s f :
  match on_read s f with
  | (ph, fs, rep, task, seen) =>
    (∀ r, rep = Some r → reply_ok f r ∧ FType r ≠ Rclunk) ∧
    (∀ t, task = Some t → ct_tag t = Tag f ∧ ct_req t = f) ∧
    ph ≠ AwaitVersion ∧ ph ≠ Stopped ∧
    (phase s = AwaitVersion → rep = Some (rversion f) ∧ task = None)
  end.
Proof.
  unfold on_read, reply_ok.
  destruct (phase s) eqn:E; [| | destruct (FType f) | destruct (FType f)];
    try destruct (_ && _); repeat split; intros; simplify_eq; simpl in *;
    try done; try congruence.
Qed.

Lemma pinv_init : pinv init.
Proof. split; simpl; try done. intros [H|H]; discriminate. Qed.

Lemma Forall_lookup_some {A} (P : A → Prop) l i x :
  Forall P l → l !! i = Some x → P x.
Proof. intros H Hl. rewrite Forall_lookup in H. eauto. Qed.

Lemma pinv_step d s l s' : pinv s → step d s l s' → pinv s'.
Proof.
  intros I Hs. destruct I as [Ip It Il Iwa Iw Iph Iv1 Iv2 Iv3].
  destruct Hs as [s f Hc | s Hc | s q r Hp Hlen | s i t Hi Hd Hnow
                  | s i t Hi Hd Hlen | s g rest Ha Ho | s g rest Ha Ho | s].
  - (* read *)
    destruct Hc as [Hns Hpn].
    pose proof (on_read_spec s f) as Hspec. unfold after_read.
    destruct (on_read s f) as [[[[ph fs] rep] task] seen].
    destruct Hspec as (Hrep & Htask & Hph1 & Hph2 & Hv).
    destruct (decide (phase s = AwaitVersion)) as [Hav|Hav].
    + specialize (Hv Hav) as [-> ->]. pose proof (Iv1 Hav) as Hin.
      destruct (Iv2 Hin) as (Hl & _ & Ht).
      rewrite Hl in Iwa, Iw. simpl in Iwa, Iw.
      split; simpl; rewrite ?Hin, ?Hl, ?Ht; simpl; try done.
      * intros q r Hqr. injection Hqr as <- <-. apply Hrep. done.
      * intros q rest Hqr. injection Hqr as <- <-. done.
    + assert (inlog s ≠ []) as Hne.
      { apply Iph. destruct (phase s); tauto. }
      destruct (inlog s) as [|q0 rest0] eqn:Hin; [done|].
      specialize (Iv3 q0 rest0 eq_refl).
      destruct (log s) as [|e le] eqn:Hl; [destruct Iv3 as [Hp _]; congruence|].
      split; simpl; rewrite ?Hin, ?Hl; try done.
      * intros q r Hqr. destruct rep as [r'|]; simpl in Hqr; [|done].
        injection Hqr as <- <-. apply Hrep. done.
      * apply Forall_app; split; [done|].
        destruct task as [t|]; simpl; [|done].
        constructor; [|done]. destruct (Htask t eq_refl) as [-> ->]. done.
      * intros q rest Hqr. injection Hqr as <- _. exact Iv3.
  - (* read fails *)
    destruct Hc as [_ Hpn].
    split; simpl; try done.
    + intros [H|H]; discriminate.
    + intros Hin. destruct (Iv2 Hin) as (? & ? & ?). done.
    + intros q rest Hin. specialize (Iv3 q rest Hin).
      destruct (log s); [destruct Iv3; congruence|done].
  - (* serve sends *)
    destruct (Ip q r Hp) as [Hok _].
    split; simpl; try done.
    + apply Forall_app; split; [done|]. constructor; done.
    + intros Ha. rewrite map_app, (Iwa Ha), <- app_assoc. done.
    + rewrite map_app. by apply prefix_app_r.
    + intros Hin. destruct (Iv2 Hin) as (_ & Hp1 & _). congruence.
    + intros q0 rest Hin. specialize (Iv3 q0 rest Hin).
      destruct (log s) as [|e le]; simpl.
      * destruct Iv3 as [Hp0 _]. rewrite Hp0 in Hp. injection Hp as <- <-. done.
      * done.
  - (* a clunk goroutine deletes its fid *)
    assert (tasks s ≠ []) as Hne by (intros Hn; rewrite Hn in Hi; done).
    split; simpl; try done.
    + apply Forall_insert; [done|]. simpl.
      exact (Forall_lookup_some _ _ _ _ It Hi).
    + intros Hin. destruct (Iv2 Hin) as (? & ? & ?). done.
    + intros q rest Hin. specialize (Iv3 q rest Hin).
      destruct (log s); [destruct Iv3; done|done].
  - (* a clunk goroutine sends Rclunk *)
    assert (tasks s ≠ []) as Hne by (intros Hn; rewrite Hn in Hi; done).
    pose proof (Forall_lookup_some _ _ _ _ It Hi) as Htag.
    split; simpl; try done.
    + by apply Forall_delete.
    + apply Forall_app; split; [done|]. constructor; [|done].
      unfold reply_ok; simpl. repeat split; try done.
    + intros Ha. rewrite map_app, (Iwa Ha), <- app_assoc. done.
    + rewrite map_app. by apply prefix_app_r.
    + intros Hin. destruct (Iv2 Hin) as (? & ? & ?). done.
    + intros q rest Hin. specialize (Iv3 q rest Hin).
      destruct (log s); [destruct Iv3; done|done].
  - (* the sender writes *)
    split; simpl; try done.
    + intros _. rewrite (Iwa Ha), Ho, <- app_assoc. done.
    + rewrite (Iwa Ha), Ho. exists rest. rewrite <- app_assoc. done.
  - (* the sender fails *)
    split; simpl; try done.
  - (* time passes *)
    split; simpl; done.
Qed.

Lemma pinv_reachable d s : reachable d s → pinv s.
Proof.
  unfold reachable. revert s. apply rtc_ind_r.
  - apply pinv_init.
  - intros y z _ [l Hyz] Iy. eapply pinv_step; eauto.
Qed.

(** ** Concrete runs of the proxy *)

Lemma px_attached_reachable : reachable 5 Sys.px_attached.
Proof.
  unfold Sys.px_attached. cbv zeta.
  eapply rtc_r; [|eexists; apply st_write; reflexivity].
  eapply rtc_r; [|eexists; apply st_send; [reflexivity|vm_compute; lia]].
  eapply rtc_r; [|eexists; apply st_read; split; [discriminate|reflexivity]].
  eapply rtc_r; [|eexists; apply st_write; reflexivity].
  eapply rtc_r; [|eexists; apply st_send; [reflexivity|vm_compute; lia]].
  eapply rtc_r; [|eexists; apply st_read; split; [discriminate|reflexivity]].
  apply rtc_refl.
Qed.

(** The attached proxy after it has read and answered [Twalk(tag 1, fid 0,
    newfid 1, ["file"])]. *)
Definition walk1 : Fcall := Sys.twalk 1 0 1 ["file"%string].

Definition px_walked : Proxy :=
  after_send (after_read Sys.px_attached walk1) walk1 (rwalk walk1).

Lemma px_walked_reachable : reachable 5 px_walked.
Proof.
  unfold px_walked.
  eapply rtc_r; [|eexists; apply st_send; [reflexivity|vm_compute; lia]].
  eapply rtc_r; [|eexists; apply st_read; split; [discriminate|reflexivity]].
  apply px_attached_reachable.
Qed.

(** ** Replies carry the tag of their request *)

(** C4.  Every reply the proxy sends, other than the Rversion of the
    handshake (which carries NOTAG), carries the tag of the request it
    answers; this covers Rattach, Rwalk, Ropen, Rerror and the Rclunk sent
    by the delayed goroutine. *)
Theorem serve_reply_tag d s q r :
  reachable d s → (q, r) ∈ log s → FType r ≠ Rversion → Tag r = Tag q.
Proof.
  intros Hr Hin Hv. destruct (pinv_reachable d s Hr) as [_ _ Il _ _ _ _ _ _].
  rewrite Forall_forall in Il. apply (Il (q, r) Hin). done.
Qed.

(** ** Shape of Rwalk *)

(** C5.  An Rwalk sent in answer to a Twalk has one qid per walked name
    (each the file qid {Type: QTFILE, Path: 1}). *)
Theorem serve_rwalk_shape d s q r :
  reachable d s → (q, r) ∈ log s → FType q = Twalk → FType r = Rwalk →
  length (Wqid r) = length (Wname q) ∧ Forall (λ x, x = file_qid) (Wqid r).
Proof.
  intros Hr Hin _ Hw. destruct (pinv_reachable d s Hr) as [_ _ Il _ _ _ _ _ _].
  rewrite Forall_forall in Il. destruct (Il (q, r) Hin) as (_ & _ & Hq).
  simpl in Hq. rewrite (Hq Hw). split.
  - apply length_map.
  - apply Forall_forall. intros x Hx. apply list_elem_of_fmap in Hx as (? & -> & _). done.
Qed.

(** ** The handshake *)

(** C7.  The first frame the proxy writes on the connection is an
    Rversion with tag NOTAG, the Msize of the first request it read, and
    version "9P2000". *)
Theorem serve_first_frame_rversion d s g rest :
  reachable d s → written s = g :: rest →
  ∃ q more, inlog s = q :: more ∧
    FType g = Rversion ∧ Tag g = NOTAG ∧ Msize g = Msize q ∧ Version g = "9P2000".
Proof.
  intros Hr Hw. destruct (pinv_reachable d s Hr) as [_ _ _ _ Iw _ _ Iv2 Iv3].
  rewrite Hw in Iw. destruct Iw as [k Hk].
  destruct (log s) as [|e le] eqn:Hl; [done|].
  destruct (inlog s) as [|q more] eqn:Hin.
  - destruct (Iv2 eq_refl) as [Hl' _]. done.
  - specialize (Iv3 q more eq_refl). simpl in Iv3, Hk. subst e.
    injection Hk as <- _. exists q, more. done.
Qed.

(** ** The delayed Rclunk *)

Lemma on_read_keeps_fids s f :
  match on_read s f with (ph, fs, rep, task, seen) => fids s ⊆ fs end.
Proof.
  unfold on_read. destruct (phase s); [set_solver|set_solver| |];
    destruct (FType f); try destruct (_ && _); set_solver.
Qed.

Lemma after_read_out s f : out (after_read s f) = out s.
Proof. unfold after_read. by destruct (on_read s f) as [[[[? ?] ?] ?] ?]. Qed.

Lemma app_one_not_shorter {A} (l : list A) x :
  l ≠ l ++ [x].
Proof. intros H. apply (f_equal length) in H. rewrite length_app in H. simpl in H. lia. Qed.

(** C2 (amended).  Reading Tclunk(F) in the main loop leaves the fid
    table and the output untouched and starts a goroutine stamped with the
    current time; a fid leaves the table only when such a goroutine, at
    least clunkDelay after its Tclunk was read, deletes it; and an Rclunk
    is queued only by a goroutine that has already done its deletion. *)
Theorem serve_clunk_delayed d s l s' :
  reachable d s → step d s l s' →
  (∀ f, l = LRead f → phase s = Serving → FType f = Tclunk →
     fids s' = fids s ∧ pend s' = None ∧ out s' = out s ∧
     tasks s' = tasks s ++ [{| ct_tag := Tag f; ct_fid := Fid f; ct_since := now s;
                               ct_deleted := false; ct_req := f |}]) ∧
  (∀ i, l = LTaskDelete i →
     ∃ t, tasks s !! i = Some t ∧ ct_deleted t = false ∧
       (ct_since t + d ≤ now s)%nat ∧ fids s' = fids s ∖ {[ct_fid t]} ∧
       tasks s' !! i = Some {| ct_tag := ct_tag t; ct_fid := ct_fid t;
                               ct_since := ct_since t; ct_deleted := true;
                               ct_req := ct_req t |}) ∧
  (∀ x, x ∈ fids s → x ∉ fids s' → ∃ i, l = LTaskDelete i) ∧
  (∀ g, out s' = out s ++ [g] → FType g = Rclunk →
     ∃ i t, l = LTaskSend i ∧ tasks s !! i = Some t ∧ ct_deleted t = true ∧
       g = rclunk (ct_tag t)).
Proof.
  intros Hr Hs. pose proof (pinv_reachable d s Hr) as I.
  destruct Hs as [s f Hc | s Hc | s q r Hp Hlen | s i t Hi Hd Hnow
                  | s i t Hi Hd Hlen | s g rest Ha Ho | s g rest Ha Ho | s];
    (split; [|split; [|split]]);
    try (intros ? Hl; discriminate Hl); try (intros ? Hl; injection Hl as <-).
  - intros Hph Ht. unfold after_read, on_read. rewrite Hph, Ht. simpl.
    destruct Hc as [_ Hpn]. done.
  - intros x Hx Hx'. exfalso. apply Hx'.
    pose proof (on_read_keeps_fids s f) as Hk. unfold after_read.
    destruct (on_read s f) as [[[[ph fs] rep] task] seen]. simpl. set_solver.
  - intros g Hg. rewrite after_read_out in Hg. exfalso. apply (app_one_not_shorter (out s) g). exact Hg.
  - intros x Hx Hx'. done.
  - intros g Hg. exfalso. apply (app_one_not_shorter (out s) g). exact Hg.
  - intros x Hx Hx'. done.
  - intros g Hg Hrc. simpl in Hg. apply app_inv_head in Hg. injection Hg as <-.
    destruct (pi_pend _ I q r Hp). done.
  - exists t. simpl. rewrite list_lookup_insert_eq; [done|].
    by apply lookup_lt_Some in Hi.
  - intros x Hx Hx'. eauto.
  - intros g Hg. exfalso. apply (app_one_not_shorter (out s) g). exact Hg.
  - intros x Hx Hx'. done.
  - intros g Hg _. simpl in Hg. apply app_inv_head in Hg. injection Hg as <-. by exists i, t.
  - intros x Hx Hx'. done.
  - intros g' Hg. simpl in Hg. rewrite Ho in Hg.
    apply (f_equal length) in Hg. simpl in Hg. rewrite length_app in Hg. simpl in Hg. lia.
  - intros x Hx Hx'. done.
  - intros g' Hg. simpl in Hg. rewrite Ho in Hg.
    apply (f_equal length) in Hg. simpl in Hg. rewrite length_app in Hg. simpl in Hg. lia.
  - intros x Hx Hx'. done.
  - intros g Hg. exfalso. apply (app_one_not_shorter (out s) g). exact Hg.
Qed.

(** ** Runs that settle C2 and C3 as stated *)

Definition clunk0 : Fcall := Sys.tclunk 1 0.

Definition clunk_task0 : ClunkTask :=
  {| ct_tag := 1; ct_fid := 0; ct_since := 0; ct_deleted := false; ct_req := clunk0 |}.

(** The attached proxy has read Tclunk(0), 5ms have passed and the
    goroutine has deleted fid 0; it has not sent Rclunk yet. *)
Definition px_clunk_deleted : Proxy :=
  after_task_delete
    (after_tick (after_tick (after_tick (after_tick (after_tick
      (after_read Sys.px_attached clunk0))))))
    0 clunk_task0.

Lemma px_clunk_deleted_reachable : reachable 5%nat px_clunk_deleted.
Proof.
  unfold px_clunk_deleted.
  eapply rtc_r; [|eexists; apply st_task_delete; [reflexivity|reflexivity|vm_compute; lia]].
  do 5 (eapply rtc_r; [|eexists; apply st_tick]).
  eapply rtc_r; [|eexists; apply st_read; split; [discriminate|reflexivity]].
  apply px_attached_reachable.
Qed.

(** C2 as stated fails: after the delay the goroutine deletes F before it
    sends Rclunk, so there is a moment at which the client has not
    received Rclunk(F) and F is no longer in the table. *)
Lemma serve_clunk_live_until_rclunk_fails :
  ¬ (∀ d s, reachable d s → ∀ f, f ∈ inlog s → FType f = Tclunk →
       (∀ g, g ∈ written s → ¬ (FType g = Rclunk ∧ Tag g = Tag f)) →
       Fid f ∈ fids s).
Proof.
  intros H.
  assert (Hin : Fid clunk0 ∈ fids px_clunk_deleted).
  { apply (H 5%nat px_clunk_deleted px_clunk_deleted_reachable clunk0).
    - apply list_elem_of_In. vm_compute. tauto.
    - reflexivity.
    - intros g Hg [Hc _]. apply list_elem_of_In in Hg. vm_compute in Hg.
      destruct Hg as [<-|[<-|[]]]; discriminate. }
  assert (Hb : bool_decide (Fid clunk0 ∈ fids px_clunk_deleted) = false)
    by (vm_compute; reflexivity).
  rewrite bool_decide_eq_false in Hb. done.
Qed.

(** C3 as stated fails: the Twalk rule is the main loop's; a Twalk read
    as the first frame is answered with the handshake's Rversion, neither
    an error nor an Rwalk. *)
Lemma serve_walk_rule_fails_before_attach :
  ¬ (∀ d s f s', reachable d s → step d s (LRead f) s' → FType f = Twalk →
       ∃ r, pend s' = Some (f, r) ∧
         ((FType r = Rerror ∧ Ename r = "duplicate fid") ↔
            (Newfid f ∈ fids s ∧ Newfid f ≠ Fid f)) ∧
         (¬ (Newfid f ∈ fids s ∧ Newfid f ≠ Fid f) →
            FType r = Rwalk ∧ Newfid f ∈ fids s')).
Proof.
  intros H.
  destruct (H 5%nat init walk1 (after_read init walk1) (rtc_refl _ _))
    as (r & Hp & _ & Hw).
  - apply st_read. split; [discriminate|reflexivity].
  - reflexivity.
  - vm_compute in Hp. injection Hp as <-.
    destruct Hw as [Hw _]; [|discriminate].
    intros [Hn _]. vm_compute in Hn. set_solver.
Qed.

(** ** Witnesses *)

Lemma serve_walk_dup_rule_witness :
  step 5%nat Sys.px_attached (LRead walk1) (after_read Sys.px_attached walk1) ∧
  pend (after_read Sys.px_attached walk1) = Some (walk1, rwalk walk1) ∧
  fids (after_read Sys.px_attached walk1) = {[Newfid walk1]} ∪ fids Sys.px_attached.
Proof.
  assert (Hs : step 5%nat Sys.px_attached (LRead walk1) (after_read Sys.px_attached walk1)).
  { apply st_read. split; [discriminate|reflexivity]. }
  split; [exact Hs|].
  apply (serve_walk_dup_rule 5%nat Sys.px_attached walk1 _ Hs); [reflexivity|reflexivity|].
  intros [Hn _]. vm_compute in Hn. set_solver.
Defined.

Definition read1 : Fcall := fcall0 Tread 2.

Lemma serve_rejects_unsupported_witness :
  ∃ r, pend (after_read Sys.px_attached read1) = Some (read1, r) ∧ FType r = Rerror ∧
       Tag r = Tag read1 ∧ Ename r = "not supported" ∧
       fids (after_read Sys.px_attached read1) = fids Sys.px_attached ∧
       tasks (after_read Sys.px_attached read1) = tasks Sys.px_attached.
Proof.
  apply (serve_rejects_unsupported 5%nat Sys.px_attached read1).
  - apply st_read. split; [discriminate|reflexivity].
  - reflexivity.
  - discriminate.
  - discriminate.
  - discriminate.
Defined.

Definition attach0 : Fcall := Sys.tattach 0 0 "nobody".

Lemma serve_reply_tag_witness :
  reachable 5%nat Sys.px_attached ∧ (attach0, rattach attach0) ∈ log Sys.px_attached ∧
  Tag (rattach attach0) = Tag attach0.
Proof.
  assert (Hin : (attach0, rattach attach0) ∈ log Sys.px_attached).
  { apply list_elem_of_In. vm_compute. tauto. }
  split; [apply px_attached_reachable|]. split; [exact Hin|].
  apply (serve_reply_tag 5%nat Sys.px_attached); [apply px_attached_reachable|exact Hin|discriminate].
Defined.

Lemma serve_rwalk_shape_witness :
  reachable 5%nat px_walked ∧ (walk1, rwalk walk1) ∈ log px_walked ∧
  length (Wqid (rwalk walk1)) = length (Wname walk1) ∧
  Forall (λ x, x = file_qid) (Wqid (rwalk walk1)).
Proof.
  assert (Hin : (walk1, rwalk walk1) ∈ log px_walked).
  { apply list_elem_of_In. vm_compute. tauto. }
  split; [apply px_walked_reachable|]. split; [exact Hin|].
  apply (serve_rwalk_shape 5%nat px_walked); [apply px_walked_reachable|exact Hin|reflexivity|reflexivity].
Defined.

Lemma serve_first_frame_rversion_witness :
  ∃ q more, inlog Sys.px_attached = q :: more ∧
    FType (rversion (Sys.tversion 8192)) = Rversion ∧
    Tag (rversion (Sys.tversion 8192)) = NOTAG ∧
    Msize (rversion (Sys.tversion 8192)) = Msize q ∧
    Version (rversion (Sys.tversion 8192)) = "9P2000".
Proof.
  apply (serve_first_frame_rversion 5%nat Sys.px_attached _ [rattach attach0]).
  - apply px_attached_reachable.
  - reflexivity.
Defined.

Lemma serve_clunk_delayed_witness :
  fids (after_read Sys.px_attached clunk0) = fids Sys.px_attached ∧
  pend (after_read Sys.px_attached clunk0) = None ∧
  out (after_read Sys.px_attached clunk0) = out Sys.px_attached ∧
  tasks (after_read Sys.px_attached clunk0) = tasks Sys.px_attached ++ [clunk_task0].
Proof.
  assert (Hs : step 5%nat Sys.px_attached (LRead clunk0) (after_read Sys.px_attached clunk0)).
  { apply st_read. split; [discriminate|reflexivity]. }
  destruct (serve_clunk_delayed 5%nat Sys.px_attached (LRead clunk0) _
              px_attached_reachable Hs) as [H1 _].
  exact (H1 clunk0 eq_refl eq_refl eq_refl).
Defined.

End ProxyFacts.

(** * Properties of acme.Mount *)

Module AcmeFacts.
Import Acme.

(** ** The non-Plan 9 build *)

(** C8.  One call to Mount calls client.MountService("acme") exactly once;
    on an error it returns a nil Fsys and that error, and on success a
    newly allocated Fsys wrapping the connection MountService returned.
    It neither reads nor changes defaultFsys, defaultErr or defaultOnce. *)
Theorem p9p_mount_dials_once oracle w :
  let '(r, w') := P9P.Mount oracle w in
  dials w' = dials w ++ ["acme"%string] ∧
  defaultFsys w' = defaultFsys w ∧ defaultErr w' = defaultErr w ∧
  once_done w' = once_done w ∧ cheap w' = cheap w ∧
  match oracle (length (dials w)) with
  | MSErr e => r = (None, Some e) ∧ aheap w' = aheap w
  | MSOk p => r = (Some (length (aheap w)), None) ∧
              aheap w' = aheap w ++ [{| fs := Some p |}]
  end.
Proof.
  unfold P9P.Mount, P9P.MountService, mbind, M_bind.
  destruct (oracle (length (dials w))) as [p|e]; simpl; repeat split.
Qed.

(** ** The Plan 9 build *)

Definition world_mounted : World :=
  {| defaultFsys := Some 0%nat; defaultErr := None; once_done := true;
     cheap := [{| Mtpt := "/mnt/acme" |}]; aheap := [{| fs := Some 0%nat |}];
     dials := [] |}.

Lemma plan9_mount_first : Plan9.Mount world0 = ((Some 0%nat, None), world_mounted).
Proof. reflexivity. Qed.

Lemma plan9_mount_again : Plan9.Mount world_mounted = ((Some 0%nat, None), world_mounted).
Proof. reflexivity. Qed.

Lemma plan9_mounts_again n :
  Plan9.mounts n world_mounted = (replicate n (Some 0%nat, None), world_mounted).
Proof.
  induction n as [|n IH]; [reflexivity|].
  cbn [Plan9.mounts]. unfold mbind, M_bind. rewrite plan9_mount_again, IH. reflexivity.
Qed.

(** C10.  On Plan 9, any number of calls to Mount from program start all
    return the same non-nil Fsys and a nil error; its mount point is
    "/mnt/acme", and mountAcme has run once (one Fsys and one
    client.Fsys allocated, no dial). *)
Theorem plan9_mount_same_default n :
  ∃ a w, Plan9.mounts (S n) world0 = (replicate (S n) (Some a, None), w) ∧
    Plan9.mtpt_of w a = Some "/mnt/acme"%string ∧
    length (aheap w) = 1%nat ∧ length (cheap w) = 1%nat ∧ dials w = [].
Proof.
  exists 0%nat, world_mounted. split; [|done].
  cbn [Plan9.mounts]. unfold mbind, M_bind.
  rewrite plan9_mount_first, plan9_mounts_again. reflexivity.
Qed.

End AcmeFacts.

(** * The codec: decoding then encoding gives the frame back *)

Module CodecFacts.
Import Codec.

Lemma length_put_le w n : length (put_le w n) = w.
Proof. revert n; induction w as [|w IH]; intros n; simpl; [done|by rewrite IH]. Qed.

Lemma byte_of_N_low x m : byte_of_N (Byte.to_N x + 256 * m) = x.
Proof.
  unfold byte_of_N.
  pose proof (Byte.to_N_bounded x).
  rewrite <- (N.mod_unique (Byte.to_N x + 256 * m) 256 m (Byte.to_N x)); [|lia|lia].
  by rewrite Byte.of_to_N.
Qed.

Lemma div_256_high x m : (Byte.to_N x + 256 * m) / 256 = m.
Proof.
  pose proof (Byte.to_N_bounded x).
  symmetry; apply (N.div_unique _ _ _ (Byte.to_N x)); lia.
Qed.

Lemma get_le_sound w b n r : get_le w b = Some (n, r) → b = put_le w n ++ r.
Proof.
  revert b n r; induction w as [|w IH]; intros b n r H; simpl in H.
  - by injection H as <- <-.
  - destruct b as [|x b]; [discriminate|].
    destruct (get_le w b) as [[m r']|] eqn:E; [|discriminate].
    injection H as <- <-. simpl.
    rewrite byte_of_N_low, div_256_high. by rewrite <- (IH _ _ _ E).
Qed.

Lemma get_bytes_sound n b x r :
  get_bytes n b = Some (x, r) → b = x ++ r ∧ length x = n.
Proof.
  unfold get_bytes. case_decide; [|discriminate]. intros Hx; injection Hx as <- <-.
  split; [by rewrite take_drop | rewrite length_take; lia].
Qed.

(** Destructs the option and pair matches of a successful parse [H]. *)
Ltac opt_dest H :=
  repeat (unfold mbind, option_bind in H; cbv beta iota in H; lazymatch type of H with
    | context [match ?o with Some _ => _ | None => _ end] =>
        let p := fresh "p" in let E := fresh "E" in
        destruct o as [p|] eqn:E; [|discriminate H];
        try (lazymatch type of p with (_ * _)%type => destruct p end)
    end).

Lemma get_str_sound b s r : get_str b = Some (s, r) → b = put_str s ++ r.
Proof.
  unfold get_str. intros H. opt_dest H. injection H as <- <-.
  apply get_le_sound in E. apply get_bytes_sound in E0 as [-> Hl].
  unfold put_str. rewrite list_byte_of_string_of_list_byte, Hl, N2Nat.id.
  subst b. by rewrite app_assoc.
Qed.

Lemma get_data_sound b d r : get_data b = Some (d, r) → b = put_data d ++ r.
Proof.
  unfold get_data. intros H. opt_dest H.
  apply get_le_sound in E. apply get_bytes_sound in H as [-> Hl].
  unfold put_data. rewrite Hl, N2Nat.id. subst b. by rewrite app_assoc.
Qed.

Lemma get_qid_sound b q r : get_qid b = Some (q, r) → b = put_qid q ++ r.
Proof.
  unfold get_qid. intros H. opt_dest H. injection H as <- <-.
  apply get_le_sound in E, E0, E1. subst. unfold put_qid; simpl.
  by rewrite ?app_assoc.
Qed.

Lemma get_many_sound {A} (p : list byte → option (A * list byte))
    (enc : A → list byte) :
  (∀ b x r, p b = Some (x, r) → b = enc x ++ r) →
  ∀ n b xs r, get_many p n b = Some (xs, r) →
    b = mjoin (map enc xs) ++ r ∧ length xs = n.
Proof.
  intros Hp n; induction n as [|n IH]; intros b xs r H; simpl in H.
  - by injection H as <- <-.
  - opt_dest H. injection H as <- <-.
    apply Hp in E. apply IH in E0 as [-> <-]. subst b. simpl.
    by rewrite app_assoc.
Qed.

Lemma dec_body_sound t tag b f r :
  dec_body t tag b = Some (f, r) →
  FType f = t ∧ Tag f = tag ∧ ∃ body, enc_body f = Some body ∧ b = body ++ r.
Proof.
  intros H. unfold dec_body in H. destruct t; opt_dest H; try discriminate H;
    injection H as <- <-; (split; [done|split; [done|]]); eexists; (split; [reflexivity|]);
    repeat match goal with
    | E : get_le _ _ = Some _ |- _ => apply get_le_sound in E
    | E : get_str _ = Some _ |- _ => apply get_str_sound in E
    | E : get_data _ = Some _ |- _ => apply get_data_sound in E
    | E : get_qid _ = Some _ |- _ => apply get_qid_sound in E
    | E : get_many get_str _ _ = Some _ |- _ =>
        apply (get_many_sound get_str put_str get_str_sound) in E as [? ?]
    | E : get_many get_qid _ _ = Some _ |- _ =>
        apply (get_many_sound get_qid put_qid get_qid_sound) in E as [? ?]
    end; subst; cbn -[put_le put_str put_qid put_data];
    repeat match goal with H : length _ = N.to_nat _ |- _ => rewrite H, N2Nat.id end;
    rewrite <- ?app_assoc; reflexivity.
Qed.

Lemma type_of_code_sound c t : type_of_code c = Some t → code_of t = c.
Proof.
  intros H. destruct c as [|p]; [discriminate|].
  repeat (destruct p as [p|p|]; simpl in H; try discriminate H).
  all: injection H as <-; reflexivity.
Qed.

(** C6.  Every byte sequence that decodes to a message is given back
    exactly by encoding that message. *)
Theorem codec_roundtrip b f : decode b = Some f → encode f = Some b.
Proof.
  unfold decode. intros H. opt_dest H.
  case_decide as Hsz; [|discriminate].
  opt_dest H. destruct l2; [|discriminate]. injection H as ->.
  apply get_le_sound in E, E0, E2.
  apply type_of_code_sound in E1.
  apply dec_body_sound in E3 as (Ht & Htag & body & Hb & ->).
  unfold encode. rewrite Hb. cbn [mbind option_bind].
  rewrite Ht, Htag, E1, ?app_nil_r.
  rewrite app_nil_r in E2. subst l0 l n0 n1. rewrite E in Hsz |- *.
  f_equal. f_equal. f_equal.
  rewrite Hsz, !length_app, !length_put_le. f_equal.
Qed.

(** A Twalk frame on the wire. *)
Definition walk_frame : list byte :=
  put_le 4 23 ++ put_le 1 110 ++ put_le 2 1 ++ put_le 4 0 ++ put_le 4 1 ++
  put_le 2 1 ++ put_str "file".

Lemma codec_roundtrip_witness :
  decode walk_frame = Some ProxyFacts.walk1 ∧
  encode ProxyFacts.walk1 = Some walk_frame.
Proof. split; [vm_compute; reflexivity | apply codec_roundtrip; vm_compute; reflexivity]. Defined.

End CodecFacts.

(** * The fid lifecycle manager: reuse only after confirmRetire *)

Module FidFacts.
Import FidMgr.

(** The free list holds distinct numbers in no live state, below
    [nextfid]; every live number is below [nextfid]. *)
Record mgr_wf (m : Mgr) : Prop := {
  wf_free_dead : ∀ x, x ∈ freefid m → fstate m !! x = None;
  wf_free_nodup : NoDup (freefid m);
  wf_free_below : ∀ x, x ∈ freefid m → x < nextfid m;
  wf_live_below : ∀ x v, fstate m !! x = Some v → x < nextfid m }.

Lemma mgr_wf_mgr0 : mgr_wf mgr0.
Proof. split; simpl; [set_solver|constructor|set_solver|]. intros x v H. by rewrite lookup_empty in H. Qed.

Lemma allocate_spec m x m' :
  mgr_wf m → allocate m = (x, m') →
  fstate m !! x = None ∧ fstate m' = <[x := Allocated]> (fstate m) ∧ mgr_wf m'.
Proof.
  intros [W1 W2 W3 W4]. unfold allocate.
  destruct (freefid m) as [|y rest] eqn:Ef; intros H; injection H as <- <-.
  - split; [|split; [done|]].
    + destruct (fstate m !! nextfid m) eqn:E; [|done]. apply W4 in E. lia.
    + split; simpl; [set_solver|constructor|set_solver|].
      intros z v Hz. destruct (decide (z = nextfid m)) as [->|Hne]; [lia|].
      rewrite lookup_insert_ne in Hz by congruence. apply W4 in Hz. lia.
  - apply NoDup_cons in W2 as [Hy Hrest].
    split; [apply W1; set_solver|split; [done|]].
    split; simpl; [|done| intros z Hz; apply W3; set_solver|].
    + intros z Hz. rewrite lookup_insert_ne by set_solver. apply W1. set_solver.
    + intros z v Hz. destruct (decide (z = y)) as [->|Hne]; [apply W3; set_solver|].
      rewrite lookup_insert_ne in Hz by congruence. by apply W4 in Hz.
Qed.

Lemma move_spec from to x m m' :
  mgr_wf m → move from to x m = Some m' →
  fstate m !! x = Some from ∧ fstate m' = <[x := to]> (fstate m) ∧
  freefid m' = freefid m ∧ mgr_wf m'.
Proof.
  intros [W1 W2 W3 W4]. unfold move. case_decide as Hx; [|discriminate].
  intros H; injection H as <-. split; [done|split; [done|split; [done|]]].
  split; simpl; [|done|done|].
  - intros z Hz. pose proof (W1 z Hz). rewrite lookup_insert_ne; [done|].
    intros ->. congruence.
  - intros z v Hz. destruct (decide (z = x)) as [->|Hne]; [by apply W4 in Hx|].
    rewrite lookup_insert_ne in Hz by congruence. by apply W4 in Hz.
Qed.

Lemma free_spec from x m m' :
  mgr_wf m → free from x m = Some m' →
  fstate m !! x = Some from ∧ fstate m' = delete x (fstate m) ∧ mgr_wf m'.
Proof.
  intros [W1 W2 W3 W4]. unfold free. case_decide as Hx; [|discriminate].
  intros H; injection H as <-. split; [done|split; [done|]].
  split; simpl.
  - intros z Hz. apply elem_of_cons in Hz as [->|Hz]; [apply lookup_delete_eq|].
    destruct (decide (z = x)) as [->|Hne]; [apply lookup_delete_eq|].
    rewrite lookup_delete_ne by congruence. by apply W1.
  - constructor; [|done]. intros Hin. apply W1 in Hin. congruence.
  - intros z Hz. apply elem_of_cons in Hz as [->|Hz]; [by apply W4 in Hx|by apply W3].
  - intros z v Hz. destruct (decide (z = x)) as [->|Hne].
    + by rewrite lookup_delete_eq in Hz.
    + rewrite lookup_delete_ne in Hz by congruence. by apply W4 in Hz.
Qed.

Lemma abort_wf m : mgr_wf m → mgr_wf (abortOnDisconnect m).
Proof.
  intros [W1 W2 W3 W4]. split; simpl.
  - intros z _. apply lookup_empty.
  - apply NoDup_app. split; [apply NoDup_elements|split; [|done]].
    intros z Hz Hf. apply elem_of_elements, elem_of_dom in Hz as [v Hv].
    apply W1 in Hf. congruence.
  - intros z Hz. apply elem_of_app in Hz as [Hz|Hz]; [|by apply W3].
    apply elem_of_elements, elem_of_dom in Hz as [v Hv]. by apply W4 in Hv.
  - intros z v Hz. by rewrite lookup_empty in Hz.
Qed.

Lemma apply_op_wf m o r m' : mgr_wf m → apply_op m o = (r, m') → mgr_wf m'.
Proof.
  intros Hw. destruct o; simpl.
  - destruct (allocate m) as [x m1] eqn:E. intros H; injection H as <- <-.
    by apply allocate_spec in E as (_ & _ & ?).
  - unfold of_opt, markActive. destruct (move _ _ x m) eqn:E; intros H; injection H as <- <-;
      [by apply move_spec in E as (_ & _ & _ & ?)|done].
  - unfold of_opt, releaseFailed. destruct (free _ x m) eqn:E; intros H; injection H as <- <-;
      [by apply free_spec in E as (_ & _ & ?)|done].
  - unfold of_opt, beginRetire. destruct (move _ _ x m) eqn:E; intros H; injection H as <- <-;
      [by apply move_spec in E as (_ & _ & _ & ?)|done].
  - unfold of_opt, confirmRetire. destruct (free _ x m) eqn:E; intros H; injection H as <- <-;
      [by apply free_spec in E as (_ & _ & ?)|done].
  - intros H; injection H as <- <-. by apply abort_wf.
Qed.

(** A retiring number stays retiring under every operation except a
    successful confirmRetire of that number and a teardown. *)
Lemma apply_op_keeps_retiring m o r m' N :
  mgr_wf m → apply_op m o = (r, m') → fstate m !! N = Some Retiring →
  o ≠ OAbort → ¬ (o = OConfirmRetire N ∧ r = Done) →
  fstate m' !! N = Some Retiring ∧ r ≠ Got N.
Proof.
  intros Hw. destruct o as [|x|x|x|x|]; simpl.
  - destruct (allocate m) as [x m1] eqn:E. intros H HN _ _; injection H as <- <-.
    apply allocate_spec in E as (Hx & -> & _); [|done].
    split; [rewrite lookup_insert_ne; [done|congruence]|congruence].
  - unfold of_opt, markActive. destruct (move _ _ x m) eqn:E; intros H HN _ _;
      injection H as <- <-; [|done].
    apply move_spec in E as (Hx & -> & _); [|done].
    split; [rewrite lookup_insert_ne; [done|congruence]|done].
  - unfold of_opt, releaseFailed. destruct (free _ x m) eqn:E; intros H HN _ _;
      injection H as <- <-; [|done].
    apply free_spec in E as (Hx & -> & _); [|done].
    split; [rewrite lookup_delete_ne; [done|congruence]|done].
  - unfold of_opt, beginRetire. destruct (move _ _ x m) eqn:E; intros H HN _ _;
      injection H as <- <-; [|done].
    apply move_spec in E as (Hx & -> & _); [|done].
    split; [rewrite lookup_insert_ne; [done|congruence]|done].
  - unfold of_opt, confirmRetire. destruct (free _ x m) eqn:E; intros H HN _ Hc;
      injection H as <- <-; [|done].
    apply free_spec in E as (Hx & -> & _); [|done].
    destruct (decide (x = N)) as [->|Hne]; [by destruct Hc|].
    split; [rewrite lookup_delete_ne; [done|congruence]|done].
  - intros _ _ Ha. by destruct Ha.
Qed.

Lemma retiring_until_confirm m ops N j :
  mgr_wf m → fstate m !! N = Some Retiring →
  (run m ops).1 !! j = Some (Got N) →
  ∃ l, (l < j)%nat ∧
    (ops !! l = Some OAbort ∨
     (ops !! l = Some (OConfirmRetire N) ∧ (run m ops).1 !! l = Some Done)).
Proof.
  revert m j. induction ops as [|o rest IH]; intros m j Hw HN Hj; [done|].
  simpl in Hj |- *. destruct (apply_op m o) as [r m1] eqn:Eo.
  destruct (run m1 rest) as [rs m2] eqn:Er. simpl in Hj |- *.
  destruct (decide (o = OAbort)) as [->|Hna].
  { destruct j as [|j]; [simpl in Hj; injection Hj as ->; simpl in Eo; discriminate|].
    exists 0%nat. split; [lia|by left]. }
  destruct (decide (o = OConfirmRetire N ∧ r = Done)) as [[-> ->]|Hnc].
  { destruct j as [|j]; [simpl in Hj; discriminate|].
    exists 0%nat. split; [lia|right; done]. }
  destruct (apply_op_keeps_retiring m o r m1 N) as [HN1 Hr]; try done.
  destruct j as [|j]; [simpl in Hj; congruence|]. simpl in Hj.
  destruct (IH m1 j) as (l & Hl & Hop) ; [by eapply apply_op_wf|done|by rewrite Er|].
  rewrite Er in Hop. exists (S l). split; [lia|done].
Qed.

Lemma retire_then_confirm m ops N k j :
  mgr_wf m → ops !! k = Some (OBeginRetire N) → (run m ops).1 !! k = Some Done →
  (k < j)%nat → (run m ops).1 !! j = Some (Got N) →
  ∃ l, (k < l < j)%nat ∧
    (ops !! l = Some OAbort ∨
     (ops !! l = Some (OConfirmRetire N) ∧ (run m ops).1 !! l = Some Done)).
Proof.
  revert m k j. induction ops as [|o rest IH]; intros m k j Hw Hk Hd Hkj Hj; [done|].
  simpl in Hd, Hj |- *. destruct (apply_op m o) as [r m1] eqn:Eo.
  destruct (run m1 rest) as [rs m2] eqn:Er. simpl in Hd, Hj |- *.
  destruct j as [|j]; [lia|]. simpl in Hj.
  destruct k as [|k].
  - simpl in Hk, Hd. injection Hk as ->. injection Hd as ->.
    simpl in Eo. unfold of_opt, beginRetire in Eo.
    destruct (move Active Retiring N m) as [m1'|] eqn:Em; injection Eo as ?; [|done]. subst m1'.
    apply move_spec in Em as (_ & Hf & _ & Hw1); [|done].
    destruct (retiring_until_confirm m1 rest N j) as (l & Hl & Hop);
      [done|rewrite Hf; apply lookup_insert_eq|by rewrite Er|].
    rewrite Er in Hop. exists (S l). split; [lia|done].
  - simpl in Hk, Hd.
    destruct (IH m1 k j) as (l & Hl & Hop);
      [by eapply apply_op_wf|done|by rewrite Er|lia|by rewrite Er|].
    rewrite Er in Hop. exists (S l). split; [lia|done].
Qed.

End FidFacts.

(** * The client and the proxy together: no request is ever rejected *)

Module SysFacts.
Import Proxy FidMgr Sys FidFacts.

Definition pend_tags (p : Proxy) : list N :=
  match pend p with Some (q, _) => [Tag q] | None => [] end.

(** The tags of every request or reply in flight: requests waiting on
    the pipe, the reply serve is about to send, the clunk goroutines,
    and the frames queued in [s.out]. *)
Definition inflight (S : Sys) : list N :=
  (Tag <$> to_srv (cl S)) ++ pend_tags (px S) ++
  (ct_tag <$> tasks (px S)) ++ (Tag <$> out (px S)).

(** A request on the pipe: its tag is pending with the matching kind,
    and a walk's new fid is not in the proxy's table. *)
Definition req_ok (pm : gmap N Pending) (F : gset N) (f : Fcall) : Prop :=
  match FType f with
  | Twalk => pm !! Tag f = Some (PWalk (Newfid f)) ∧ Newfid f ∉ F
  | Topen => pm !! Tag f = Some POpen
  | Tclunk => pm !! Tag f = Some (PClunk (Fid f))
  | _ => False
  end.

(** A reply on its way: not an error, an Rwalk for a walk, and for a
    clunk the fid is already out of the proxy's table. *)
Definition resp_ok (pm : gmap N Pending) (F : gset N) (r : Fcall) : Prop :=
  FType r ≠ Rerror ∧
  match pm !! Tag r with
  | Some (PWalk _) => FType r = Rwalk
  | Some POpen => True
  | Some (PClunk x) => x ∉ F
  | None => False
  end.

Definition task_ok (pm : gmap N Pending) (F : gset N) (t : ClunkTask) : Prop :=
  pm !! ct_tag t = Some (PClunk (ct_fid t)) ∧ (ct_deleted t = true → ct_fid t ∉ F).

Definition fids_live (F : gset N) (fs : gmap N FidState) : Prop :=
  ∀ x, x ∈ F → is_Some (fs !! x).
Definition walk_alloc (pm : gmap N Pending) (fs : gmap N FidState) : Prop :=
  ∀ t x, pm !! t = Some (PWalk x) → fs !! x = Some Allocated.
Definition clunk_retiring (pm : gmap N Pending) (fs : gmap N FidState) : Prop :=
  ∀ t x, pm !! t = Some (PClunk x) → fs !! x = Some Retiring.
Definition walk_uniq (pm : gmap N Pending) : Prop :=
  ∀ t1 t2 x, pm !! t1 = Some (PWalk x) → pm !! t2 = Some (PWalk x) → t1 = t2.
Definition clunk_uniq (pm : gmap N Pending) : Prop :=
  ∀ t1 t2 x, pm !! t1 = Some (PClunk x) → pm !! t2 = Some (PClunk x) → t1 = t2.

Record sys_inv (S : Sys) : Prop := {
  si_wf : mgr_wf (mgr (cl S));
  si_phase : phase (px S) = Serving ∨ phase (px S) = Stopped;
  si_fids : fids_live (fids (px S)) (fstate (mgr (cl S)));
  si_walk : walk_alloc (pending (cl S)) (fstate (mgr (cl S)));
  si_clunk : clunk_retiring (pending (cl S)) (fstate (mgr (cl S)));
  si_walk_uniq : walk_uniq (pending (cl S));
  si_clunk_uniq : clunk_uniq (pending (cl S));
  si_nodup : NoDup (inflight S);
  si_tags : ∀ u, u ∈ inflight S → is_Some (pending (cl S) !! u);
  si_req : Forall (req_ok (pending (cl S)) (fids (px S))) (to_srv (cl S));
  si_pend : ∀ q r, pend (px S) = Some (q, r) →
              Tag r = Tag q ∧ resp_ok (pending (cl S)) (fids (px S)) r;
  si_tasks : Forall (task_ok (pending (cl S)) (fids (px S))) (tasks (px S));
  si_out : Forall (resp_ok (pending (cl S)) (fids (px S))) (out (px S));
  si_log : ∀ q r, (q, r) ∈ log (px S) → FType r ≠ Rerror }.

Lemma req_ok_mono pm pm' F F' f :
  pm' !! Tag f = pm !! Tag f → F' ⊆ F → req_ok pm F f → req_ok pm' F' f.
Proof. unfold req_ok. intros E HF. rewrite E. destruct (FType f); set_solver. Qed.

Lemma resp_ok_mono pm pm' F F' r :
  pm' !! Tag r = pm !! Tag r → F' ⊆ F → resp_ok pm F r → resp_ok pm' F' r.
Proof.
  unfold resp_ok. intros E HF [Hr Hk]. rewrite E. split; [done|].
  destruct (pm !! Tag r) as [[]|]; set_solver.
Qed.

Lemma task_ok_mono pm pm' F F' t :
  pm' !! ct_tag t = pm !! ct_tag t → F' ⊆ F → task_ok pm F t → task_ok pm' F' t.
Proof. unfold task_ok. intros E HF [Hk Hd]. rewrite E. set_solver. Qed.

Lemma in_inflight_req S f : f ∈ to_srv (cl S) → Tag f ∈ inflight S.
Proof. intros H. unfold inflight. apply elem_of_app. left. by apply list_elem_of_fmap_2. Qed.

Lemma in_inflight_pend S q r : pend (px S) = Some (q, r) → Tag q ∈ inflight S.
Proof. intros H. unfold inflight, pend_tags. rewrite H. set_solver. Qed.

Lemma in_inflight_task S t : t ∈ tasks (px S) → ct_tag t ∈ inflight S.
Proof.
  intros H. unfold inflight. apply elem_of_app. right. apply elem_of_app. right.
  apply elem_of_app. left. by apply list_elem_of_fmap_2.
Qed.

Lemma in_inflight_out S r : r ∈ out (px S) → Tag r ∈ inflight S.
Proof.
  intros H. unfold inflight. apply elem_of_app. right. apply elem_of_app. right.
  apply elem_of_app. right. by apply list_elem_of_fmap_2.
Qed.

(** Every in-flight item keeps its invariant when the pending table
    does not change at the in-flight tags and the proxy's table shrinks. *)
Lemma items_transfer_gen S pm F pm' F' :
  Forall (req_ok pm F) (to_srv (cl S)) →
  (∀ q r, pend (px S) = Some (q, r) → Tag r = Tag q ∧ resp_ok pm F r) →
  Forall (task_ok pm F) (tasks (px S)) →
  Forall (resp_ok pm F) (out (px S)) →
  (∀ u, u ∈ inflight S → pm' !! u = pm !! u) →
  F' ⊆ F →
  Forall (req_ok pm' F') (to_srv (cl S)) ∧
  (∀ q r, pend (px S) = Some (q, r) → Tag r = Tag q ∧ resp_ok pm' F' r) ∧
  Forall (task_ok pm' F') (tasks (px S)) ∧
  Forall (resp_ok pm' F') (out (px S)).
Proof.
  intros Hrq Hpd Htk Hout E HF. split; [|split; [|split]].
  - apply Forall_forall. intros f Hf. eapply req_ok_mono; [by apply E, in_inflight_req|done|].
    by eapply Forall_forall; [apply Hrq|].
  - intros q r Hp. destruct (Hpd q r Hp) as [Ht Hr]. split; [done|].
    eapply resp_ok_mono; [|done|done]. rewrite Ht. by eapply E, in_inflight_pend.
  - apply Forall_forall. intros t Ht. eapply task_ok_mono; [by apply E, in_inflight_task|done|].
    by eapply Forall_forall; [apply Htk|].
  - apply Forall_forall. intros r Hr. eapply resp_ok_mono; [by apply E, in_inflight_out|done|].
    by eapply Forall_forall; [apply Hout|].
Qed.

Lemma items_transfer S pm' F' :
  sys_inv S →
  (∀ u, u ∈ inflight S → pm' !! u = pending (cl S) !! u) →
  F' ⊆ fids (px S) →
  Forall (req_ok pm' F') (to_srv (cl S)) ∧
  (∀ q r, pend (px S) = Some (q, r) → Tag r = Tag q ∧ resp_ok pm' F' r) ∧
  Forall (task_ok pm' F') (tasks (px S)) ∧
  Forall (resp_ok pm' F') (out (px S)).
Proof.
  intros Hi. apply items_transfer_gen; [apply Hi|apply Hi|apply Hi|apply Hi].
Qed.

Lemma sys_inv_sys0 : sys_inv sys0.
Proof.
  split; simpl.
  - split; simpl; [set_solver|constructor|set_solver|].
    intros x v Hx. apply lookup_singleton_Some in Hx as [<- _]. lia.
  - by left.
  - intros x Hx. assert (x = 0) as -> by set_solver. by rewrite lookup_singleton_eq.
  - intros t x Ht. by rewrite lookup_empty in Ht.
  - intros t x Ht. by rewrite lookup_empty in Ht.
  - intros t1 t2 x Ht. by rewrite lookup_empty in Ht.
  - intros t1 t2 x Ht. by rewrite lookup_empty in Ht.
  - constructor.
  - intros u Hu. unfold inflight in Hu. simpl in Hu. set_solver.
  - constructor.
  - intros q r Hp. discriminate.
  - constructor.
  - constructor.
  - intros q r Hqr. simpl in Hqr. set_solver.
Qed.

(** Rewrites lookups in an inserted-into map in the hypotheses. *)
Ltac simpl_ins :=
  repeat match goal with
  | H : <[?t:=_]> _ !! ?t = _ |- _ => rewrite lookup_insert_eq in H
  | H : <[?t:=_]> _ !! ?u = _, Hn : ?u ≠ ?t |- _ =>
      rewrite lookup_insert_ne in H by (intros ?; apply Hn; congruence)
  end.

(** A client call puts one request on the pipe under a fresh tag. *)
Definition push_req (c : Client) (m' : Mgr) (t : N) (k : Pending) (f : Fcall) : Client :=
  {| mgr := m'; pending := <[t := k]> (pending c); to_srv := to_srv c ++ [f] |}.

Lemma inv_request S m' t k f :
  sys_inv S → pending (cl S) !! t = None → Tag f = t →
  mgr_wf m' →
  fids_live (fids (px S)) (fstate m') →
  walk_alloc (<[t := k]> (pending (cl S))) (fstate m') →
  clunk_retiring (<[t := k]> (pending (cl S))) (fstate m') →
  walk_uniq (<[t := k]> (pending (cl S))) →
  clunk_uniq (<[t := k]> (pending (cl S))) →
  req_ok (<[t := k]> (pending (cl S))) (fids (px S)) f →
  sys_inv (with_client S (push_req (cl S) m' t k f)).
Proof.
  intros Hi Ht Htag Hw Hf Hwa Hcr Hwu Hcu Hreq.
  assert (Hne : ∀ u, u ∈ inflight S → u ≠ t).
  { intros u Hu Hut. subst u. destruct (si_tags S Hi t Hu) as [? E]. congruence. }
  assert (Hperm : inflight (with_client S (push_req (cl S) m' t k f)) ≡ₚ t :: inflight S).
  { unfold inflight; simpl. rewrite fmap_app. simpl. rewrite Htag. solve_Permutation. }
  assert (E : ∀ u, u ∈ inflight S → <[t := k]> (pending (cl S)) !! u = pending (cl S) !! u).
  { intros u Hu. apply lookup_insert_ne. intros Htu. subst u. by apply (Hne t Hu). }
  destruct (items_transfer S _ (fids (px S)) Hi E) as (Hr & Hp & Hts & Ho); [done|].
  split; simpl; try done.
  - apply si_phase, Hi.
  - rewrite Hperm. constructor; [intros Hu; by apply (Hne t Hu)|apply si_nodup, Hi].
  - intros u. rewrite Hperm. intros Hu. apply elem_of_cons in Hu as [->|Hu].
    + rewrite lookup_insert_eq. by eexists.
    + rewrite E by done. by apply si_tags.
  - apply Forall_app. split; [done|by constructor].
  - apply si_log, Hi.
Qed.

Lemma inv_walk S src names t x m' :
  sys_inv S →
  fstate (mgr (cl S)) !! src = Some Active →
  pending (cl S) !! t = None →
  allocate (mgr (cl S)) = (x, m') →
  sys_inv (with_client S (push_req (cl S) m' t (PWalk x) (twalk t src x names))).
Proof.
  intros Hi Hsrc Ht Ha.
  destruct (allocate_spec _ _ _ (si_wf S Hi) Ha) as (Hx & Hfs & Hw).
  apply inv_request; try done.
  - intros y Hy. rewrite Hfs. destruct (decide (y = x)) as [->|Hne];
      [rewrite lookup_insert_eq; by eexists|rewrite lookup_insert_ne by congruence].
    by apply si_fids.
  - intros u y Hu. rewrite Hfs. destruct (decide (u = t)) as [->|Hne].
    + rewrite lookup_insert_eq in Hu. injection Hu as <-. apply lookup_insert_eq.
    + rewrite lookup_insert_ne in Hu by congruence.
      pose proof (si_walk S Hi u y Hu). rewrite lookup_insert_ne; [done|congruence].
  - intros u y Hu. rewrite Hfs. destruct (decide (u = t)) as [->|Hne].
    + by rewrite lookup_insert_eq in Hu.
    + rewrite lookup_insert_ne in Hu by congruence.
      pose proof (si_clunk S Hi u y Hu). rewrite lookup_insert_ne; [done|congruence].
  - intros t1 t2 y H1 H2.
    destruct (decide (t1 = t)) as [->|N1], (decide (t2 = t)) as [->|N2]; try done;
      simpl_ins.
    + injection H1 as <-. pose proof (si_walk S Hi t2 x H2). congruence.
    + injection H2 as <-. pose proof (si_walk S Hi t1 x H1). congruence.
    + by apply (si_walk_uniq S Hi t1 t2 y).
  - intros t1 t2 y H1 H2.
    destruct (decide (t1 = t)) as [->|N1], (decide (t2 = t)) as [->|N2]; try done;
      simpl_ins; try discriminate.
    by apply (si_clunk_uniq S Hi t1 t2 y).
  - unfold req_ok; simpl. rewrite lookup_insert_eq. split; [done|].
    intros Hin. destruct (si_fids S Hi x Hin) as [? E]. congruence.
Qed.

Lemma inv_open S fid mode t :
  sys_inv S → pending (cl S) !! t = None →
  sys_inv (with_client S (push_req (cl S) (mgr (cl S)) t POpen (topen t fid mode))).
Proof.
  intros Hi Ht. apply inv_request; try done; try apply Hi.
  - intros u y Hu. destruct (decide (u = t)) as [->|Hne].
    + by rewrite lookup_insert_eq in Hu.
    + rewrite lookup_insert_ne in Hu by congruence. by apply (si_walk S Hi u).
  - intros u y Hu. destruct (decide (u = t)) as [->|Hne].
    + by rewrite lookup_insert_eq in Hu.
    + rewrite lookup_insert_ne in Hu by congruence. by apply (si_clunk S Hi u).
  - intros t1 t2 y H1 H2.
    destruct (decide (t1 = t)) as [->|N1], (decide (t2 = t)) as [->|N2]; try done;
      simpl_ins; try discriminate.
    by apply (si_walk_uniq S Hi t1 t2 y).
  - intros t1 t2 y H1 H2.
    destruct (decide (t1 = t)) as [->|N1], (decide (t2 = t)) as [->|N2]; try done;
      simpl_ins; try discriminate.
    by apply (si_clunk_uniq S Hi t1 t2 y).
  - unfold req_ok; simpl. apply lookup_insert_eq.
Qed.

Lemma inv_close S fid t m' :
  sys_inv S → beginRetire fid (mgr (cl S)) = Some m' → pending (cl S) !! t = None →
  sys_inv (with_client S (push_req (cl S) m' t (PClunk fid) (tclunk t fid))).
Proof.
  intros Hi Hb Ht.
  destruct (move_spec _ _ _ _ _ (si_wf S Hi) Hb) as (Hact & Hfs & _ & Hw).
  apply inv_request; try done.
  - intros y Hy. rewrite Hfs. destruct (decide (y = fid)) as [->|Hne];
      [rewrite lookup_insert_eq; by eexists|rewrite lookup_insert_ne by congruence].
    by apply si_fids.
  - intros u y Hu. rewrite Hfs. destruct (decide (u = t)) as [->|Hne].
    + by rewrite lookup_insert_eq in Hu.
    + rewrite lookup_insert_ne in Hu by congruence.
      pose proof (si_walk S Hi u y Hu). rewrite lookup_insert_ne; [done|congruence].
  - intros u y Hu. rewrite Hfs. destruct (decide (u = t)) as [->|Hne].
    + rewrite lookup_insert_eq in Hu. injection Hu as <-. apply lookup_insert_eq.
    + rewrite lookup_insert_ne in Hu by congruence.
      pose proof (si_clunk S Hi u y Hu). rewrite lookup_insert_ne; [done|congruence].
  - intros t1 t2 y H1 H2.
    destruct (decide (t1 = t)) as [->|N1], (decide (t2 = t)) as [->|N2]; try done;
      simpl_ins; try discriminate.
    by apply (si_walk_uniq S Hi t1 t2 y).
  - intros t1 t2 y H1 H2.
    destruct (decide (t1 = t)) as [->|N1], (decide (t2 = t)) as [->|N2]; try done;
      simpl_ins.
    + injection H1 as <-. pose proof (si_clunk S Hi t2 fid H2). congruence.
    + injection H2 as <-. pose proof (si_clunk S Hi t1 fid H1). congruence.
    + by apply (si_clunk_uniq S Hi t1 t2 y).
  - unfold req_ok; simpl. apply lookup_insert_eq.
Qed.

Lemma resp_ok_add pm fs F x r :
  clunk_retiring pm fs → fs !! x = Some Allocated →
  resp_ok pm F r → resp_ok pm ({[x]} ∪ F) r.
Proof.
  unfold resp_ok. intros Hc Hx [Hr Hk]. split; [done|].
  destruct (pm !! Tag r) as [[y| |y]|] eqn:E; try done.
  pose proof (Hc _ _ E). assert (y ≠ x) by congruence. set_solver.
Qed.

Lemma task_ok_add pm fs F x t :
  clunk_retiring pm fs → fs !! x = Some Allocated →
  task_ok pm F t → task_ok pm ({[x]} ∪ F) t.
Proof.
  unfold task_ok. intros Hc Hx [Hk Hd]. split; [done|]. intros Hdel.
  pose proof (Hc _ _ Hk). assert (ct_fid t ≠ x) by congruence. specialize (Hd Hdel). set_solver.
Qed.

Lemma nodup_move (a : N) l1 l2 l3 :
  NoDup (a :: l1 ++ l2 ++ l3) →
  NoDup (l1 ++ [a] ++ l2 ++ l3) ∧ NoDup (l1 ++ l2 ++ [a] ++ l3).
Proof.
  intros H. split.
  - assert (P : l1 ++ [a] ++ l2 ++ l3 ≡ₚ a :: l1 ++ l2 ++ l3) by solve_Permutation.
    by rewrite P.
  - assert (P : l1 ++ l2 ++ [a] ++ l3 ≡ₚ a :: l1 ++ l2 ++ l3) by solve_Permutation.
    by rewrite P.
Qed.

Lemma inv_read S f rest :
  sys_inv S → to_srv (cl S) = f :: rest → can_read (px S) →
  sys_inv {| cl := {| mgr := mgr (cl S); pending := pending (cl S); to_srv := rest |};
             px := after_read (px S) f |}.
Proof.
  intros Hi Hts [Hns Hpn].
  assert (Hph : phase (px S) = Serving) by (destruct (si_phase S Hi); congruence).
  pose proof (si_req S Hi) as Hreqs. rewrite Hts in Hreqs.
  apply Forall_cons in Hreqs as [Hreq Hrest].
  pose proof (si_nodup S Hi) as Hnd0. unfold inflight, pend_tags in Hnd0.
  rewrite Hts, Hpn in Hnd0. simpl in Hnd0. pose proof Hnd0 as Hnd.
  apply NoDup_cons in Hnd as [Hnf Hnd].
  assert (Hf_rest : ∀ g, g ∈ rest → Tag g ≠ Tag f).
  { intros g Hg He. apply Hnf. apply elem_of_app. left. rewrite <- He.
    by apply list_elem_of_fmap_2. }
  assert (Htags : ∀ u, u ∈ Tag f :: (Tag <$> rest) ++ (ct_tag <$> tasks (px S)) ++
                          (Tag <$> out (px S)) → is_Some (pending (cl S) !! u)).
  { intros u Hu. apply (si_tags S Hi). unfold inflight, pend_tags. rewrite Hts, Hpn.
    exact Hu. }
  unfold after_read, on_read. rewrite Hph.
  unfold req_ok in Hreq. destruct (FType f) eqn:Ef; try contradiction.
  - (* Twalk: the new fid is not in the table, so it is added *)
    destruct Hreq as [Hk Hnew].
    rewrite (bool_decide_eq_false_2 (Newfid f ∈ fids (px S))) by done. simpl.
    rewrite ?app_nil_r.
    pose proof (si_walk S Hi _ _ Hk) as Hxa.
    split; simpl; try apply Hi.
    + by left.
    + intros y Hy. apply elem_of_union in Hy as [Hy|Hy].
      * apply elem_of_singleton in Hy as ->. rewrite Hxa. by eexists.
      * by apply si_fids.
    + unfold inflight, pend_tags; simpl. rewrite ?app_nil_r.
      exact (proj1 (nodup_move _ _ _ _ Hnd0)).
    + intros u Hu. apply Htags. unfold inflight, pend_tags in Hu. simpl in Hu.
      rewrite ?app_nil_r in Hu. set_solver.
    + apply Forall_forall. intros g Hg. assert (Hr : req_ok (pending (cl S)) (fids (px S)) g)
        by (eapply Forall_forall; [exact Hrest|exact Hg]).
      unfold req_ok in Hr |- *.
      destruct (FType g); try done. destruct Hr as [Hg1 Hg2]. split; [done|].
      intros Hin. apply elem_of_union in Hin as [Hin|Hin]; [|done].
      apply elem_of_singleton in Hin.
      apply (Hf_rest g Hg). rewrite Hin in Hg1. by apply (si_walk_uniq S Hi _ _ _ Hg1 Hk).
    + intros q r Hqr. injection Hqr as <- <-. split; [done|].
      unfold resp_ok; simpl. rewrite Hk. done.
    + apply Forall_forall. intros t Ht. apply (task_ok_add _ (fstate (mgr (cl S))));
        [apply Hi|done|]. by eapply Forall_forall; [apply si_tasks|].
    + apply Forall_forall. intros r Hr. apply (resp_ok_add _ (fstate (mgr (cl S))));
        [apply Hi|done|]. by eapply Forall_forall; [apply si_out|].
  - (* Topen *)
    simpl. rewrite ?app_nil_r. split; simpl; try apply Hi.
    + by left.
    + unfold inflight, pend_tags; simpl. rewrite ?app_nil_r.
      exact (proj1 (nodup_move _ _ _ _ Hnd0)).
    + intros u Hu. apply Htags. unfold inflight, pend_tags in Hu. simpl in Hu.
      rewrite ?app_nil_r in Hu. set_solver.
    + exact Hrest.
    + intros q r Hqr. injection Hqr as <- <-. split; [done|].
      unfold resp_ok; simpl. rewrite Hreq. done.
  - (* Tclunk: a goroutine is started, nothing is sent yet *)
    simpl. split; simpl; try apply Hi.
    + by left.
    + unfold inflight, pend_tags; simpl. rewrite fmap_app, <- app_assoc.
      exact (proj2 (nodup_move _ _ _ _ Hnd0)).
    + intros u Hu. apply Htags. unfold inflight, pend_tags in Hu. simpl in Hu.
      rewrite fmap_app in Hu. simpl in Hu. set_solver.
    + exact Hrest.
    + intros q r Hqr. discriminate.
    + apply Forall_app. split; [apply Hi|]. constructor; [|done].
      split; [done|simpl; discriminate].
Qed.

Lemma move_ok from to x m :
  fstate m !! x = Some from →
  move from to x m = Some {| fstate := <[x := to]> (fstate m); freefid := freefid m;
                             nextfid := nextfid m |}.
Proof. intros H. unfold move. by rewrite decide_True. Qed.

Lemma free_ok from x m :
  fstate m !! x = Some from →
  free from x m = Some {| fstate := delete x (fstate m); freefid := x :: freefid m;
                          nextfid := nextfid m |}.
Proof. intros H. unfold free. by rewrite decide_True. Qed.

(** The client's reader takes the head of [s.out]. *)
Lemma inv_deliver S g rest k :
  sys_inv S → out (px S) = g :: rest → pending (cl S) !! Tag g = Some k →
  sys_inv {| cl := {| mgr := deliver k g (mgr (cl S));
                      pending := delete (Tag g) (pending (cl S));
                      to_srv := to_srv (cl S) |};
             px := after_write (px S) g rest true |}.
Proof.
  intros Hi Ho Hk.
  set (S' := {| cl := {| mgr := deliver k g (mgr (cl S));
                         pending := delete (Tag g) (pending (cl S));
                         to_srv := to_srv (cl S) |};
                px := after_write (px S) g rest true |}).
  pose proof (si_out S Hi) as Hout. rewrite Ho in Hout.
  apply Forall_cons in Hout as [[Hnerr Hresp] Hrest]. rewrite Hk in Hresp.
  assert (Hperm : inflight S ≡ₚ Tag g :: inflight S').
  { unfold inflight; simpl. rewrite Ho. simpl. solve_Permutation. }
  pose proof (si_nodup S Hi) as Hnd. rewrite Hperm in Hnd.
  apply NoDup_cons in Hnd as [Hgn Hnd].
  assert (E : ∀ u, u ∈ inflight S' → delete (Tag g) (pending (cl S)) !! u = pending (cl S) !! u).
  { intros u Hu. apply lookup_delete_ne. intros Heq. rewrite Heq in Hgn. contradiction. }
  destruct (items_transfer_gen S' (pending (cl S)) (fids (px S))
              (delete (Tag g) (pending (cl S))) (fids (px S)))
    as (Hr & Hp & Hts & Hos); try done; try apply Hi.
  assert (Hsub : ∀ u y, delete (Tag g) (pending (cl S)) !! u = Some y →
                   u ≠ Tag g ∧ pending (cl S) !! u = Some y).
  { intros u y Hu. apply lookup_delete_Some in Hu as [? ?]. split; congruence. }
  assert (Hwu : walk_uniq (delete (Tag g) (pending (cl S)))).
  { intros t1 t2 y H1 H2. apply Hsub in H1 as [_ H1], H2 as [_ H2].
    by apply (si_walk_uniq S Hi t1 t2 y). }
  assert (Hcu : clunk_uniq (delete (Tag g) (pending (cl S)))).
  { intros t1 t2 y H1 H2. apply Hsub in H1 as [_ H1], H2 as [_ H2].
    by apply (si_clunk_uniq S Hi t1 t2 y). }
  assert (Htg : ∀ u, u ∈ inflight S' → is_Some (delete (Tag g) (pending (cl S)) !! u)).
  { intros u Hu. rewrite E by done. apply (si_tags S Hi). rewrite Hperm. by right. }
  assert (Hlog : ∀ q r, (q, r) ∈ log (px S') → FType r ≠ Rerror) by apply Hi.
  assert (Hph : phase (px S') = Serving ∨ phase (px S') = Stopped) by apply Hi.
  destruct k as [x| |x]; simpl in Hresp.
  - (* Rwalk: the new fid becomes active *)
    pose proof (si_walk S Hi _ _ Hk) as Hxa.
    assert (Hm : deliver (PWalk x) g (mgr (cl S)) =
              {| fstate := <[x := Active]> (fstate (mgr (cl S)));
                 freefid := freefid (mgr (cl S)); nextfid := nextfid (mgr (cl S)) |}).
    { unfold deliver. rewrite decide_True by done. unfold markActive. by rewrite move_ok. }
    unfold S'; rewrite Hm. split; try done; simpl.
    + exact (proj2 (proj2 (proj2
        (move_spec _ _ _ _ _ (si_wf S Hi) (move_ok Allocated Active x _ Hxa))))).
    + intros y Hy. destruct (decide (y = x)) as [->|Hne];
        [rewrite lookup_insert_eq; by eexists|rewrite lookup_insert_ne by congruence].
      by apply si_fids.
    + intros u y Hu. apply Hsub in Hu as [Hug Hu].
      assert (y ≠ x) by (intros ->; apply Hug; by apply (si_walk_uniq S Hi u (Tag g) x)).
      rewrite lookup_insert_ne by congruence. by apply (si_walk S Hi u).
    + intros u y Hu. apply Hsub in Hu as [_ Hu]. pose proof (si_clunk S Hi u y Hu).
      rewrite lookup_insert_ne by congruence. done.
  - (* Ropen *)
    split; try done; unfold S'; simpl; try apply Hi.
    + intros u y Hu. apply Hsub in Hu as [_ Hu]. by apply (si_walk S Hi u).
    + intros u y Hu. apply Hsub in Hu as [_ Hu]. by apply (si_clunk S Hi u).
  - (* Rclunk: confirmRetire frees the number *)
    pose proof (si_clunk S Hi _ _ Hk) as Hxr.
    assert (Hm : deliver (PClunk x) g (mgr (cl S)) =
              {| fstate := delete x (fstate (mgr (cl S)));
                 freefid := x :: freefid (mgr (cl S)); nextfid := nextfid (mgr (cl S)) |}).
    { unfold deliver, confirmRetire. by rewrite free_ok. }
    unfold S'; rewrite Hm. split; try done; simpl.
    + exact (proj2 (proj2
        (free_spec _ _ _ _ (si_wf S Hi) (free_ok Retiring x _ Hxr)))).
    + intros y Hy. assert (y ≠ x) by (intros ->; contradiction).
      rewrite lookup_delete_ne by congruence. by apply si_fids.
    + intros u y Hu. apply Hsub in Hu as [_ Hu]. pose proof (si_walk S Hi u y Hu).
      rewrite lookup_delete_ne by congruence. done.
    + intros u y Hu. apply Hsub in Hu as [Hug Hu].
      assert (y ≠ x) by (intros ->; apply Hug; by apply (si_clunk_uniq S Hi u (Tag g) x)).
      rewrite lookup_delete_ne by congruence. by apply (si_clunk S Hi u).
Qed.

(** A step of the proxy alone. *)
Lemma inv_proxy c p l p' :
  sys_inv {| cl := c; px := p |} →
  (∀ f, l ≠ LRead f) → (∀ g, l ≠ LWrite g) → step 5 p l p' →
  sys_inv {| cl := c; px := p' |}.
Proof.
  intros Hi Hnr Hnw Hs.
  set (S := {| cl := c; px := p |}) in Hi.
  destruct Hs as [p f Hc | p [Hns Hpn] | p q r Hp Hlen | p i t Ht Hd Hnow
                 | p i t Ht Hd Hlen | p g rest Ha Ho | p g rest Ha Ho | p].
  - by destruct (Hnr f).
  - (* serve returns *)
    assert (Heq : inflight {| cl := c; px := after_read_fail p |} = inflight S).
    { unfold inflight, pend_tags; simpl. by rewrite Hpn. }
    split; simpl; try apply Hi; try rewrite Heq; try apply Hi.
    + by right.
    + intros q r Hqr. discriminate.
  - (* serve's s.send: the reply joins s.out *)
    destruct (si_pend S Hi q r Hp) as [Htag Hr].
    assert (Hperm : inflight {| cl := c; px := after_send p q r |} ≡ₚ inflight S).
    { unfold inflight, pend_tags; simpl. rewrite Hp, fmap_app. simpl. rewrite Htag. solve_Permutation. }
    split; simpl; try apply Hi.
    + rewrite Hperm. apply Hi.
    + intros u Hu. rewrite Hperm in Hu. by apply (si_tags S Hi).
    + intros q' r' Hqr. discriminate.
    + apply Forall_app. split; [apply (si_out S Hi)|by constructor].
    + intros q' r' Hqr. apply elem_of_app in Hqr as [Hqr|Hqr].
      * by apply (si_log S Hi q').
      * apply list_elem_of_singleton in Hqr. injection Hqr as -> ->. apply Hr.
  - (* a clunk goroutine deletes its fid *)
    pose proof (Forall_lookup_1 _ _ _ _ (si_tasks S Hi) Ht) as [Hk _].
    set (t' := {| ct_tag := ct_tag t; ct_fid := ct_fid t; ct_since := ct_since t;
                  ct_deleted := true; ct_req := ct_req t |}).
    assert (Htk : ct_tag <$> <[i := t']> (tasks p) = ct_tag <$> tasks p).
    { rewrite list_fmap_insert. apply list_insert_id. by rewrite list_lookup_fmap, Ht. }
    assert (Heq : inflight {| cl := c; px := after_task_delete p i t |} = inflight S).
    { unfold inflight, pend_tags; simpl. fold t'. by rewrite Htk. }
    destruct (items_transfer S (pending c) (fids p ∖ {[ct_fid t]}) Hi)
      as (Hr & Hp & Hts & Hos); [done|set_solver|].
    split; simpl; try apply Hi; try rewrite Heq; try apply Hi; try done.
    + intros x Hx. apply (si_fids S Hi). set_solver.
    + apply Forall_insert; [done|]. split; [done|]. simpl. set_solver.
  - (* a clunk goroutine sends Rclunk *)
    pose proof (Forall_lookup_1 _ _ _ _ (si_tasks S Hi) Ht) as [Hk Hdel].
    specialize (Hdel Hd). unfold S in Hk, Hdel; simpl in Hk, Hdel.
    assert (Hperm : inflight {| cl := c; px := after_task_send p i t |} ≡ₚ inflight S).
    { unfold inflight, pend_tags; simpl.
      rewrite list_fmap_delete, fmap_app.
      assert (HP : ct_tag <$> tasks p ≡ₚ ct_tag t :: delete i (ct_tag <$> tasks p)).
      { apply delete_Permutation. by rewrite list_lookup_fmap, Ht. }
      set (D := delete i (ct_tag <$> tasks p)) in *. rewrite HP.
      simpl. solve_Permutation. }
    split; simpl; try apply Hi.
    + rewrite Hperm. apply Hi.
    + intros u Hu. rewrite Hperm in Hu. by apply (si_tags S Hi).
    + apply Forall_delete, Hi.
    + apply Forall_app. split; [apply (si_out S Hi)|constructor; [|done]].
      split; [discriminate|]. simpl. by rewrite Hk.
    + intros q' r' Hqr. apply elem_of_app in Hqr as [Hqr|Hqr].
      * by apply (si_log S Hi q').
      * apply list_elem_of_singleton in Hqr. injection Hqr as -> ->. discriminate.
  - by destruct (Hnw g).
  - (* the write fails: the frame is lost *)
    assert (Hperm : inflight S ≡ₚ Tag g :: inflight {| cl := c; px := after_write p g rest false |}).
    { unfold inflight, pend_tags; simpl. rewrite Ho. simpl. solve_Permutation. }
    pose proof (si_nodup S Hi) as Hnd. rewrite Hperm in Hnd. apply NoDup_cons in Hnd as [_ Hnd].
    pose proof (si_out S Hi) as Hout. unfold S in Hout; simpl in Hout.
    rewrite Ho in Hout. apply Forall_cons in Hout as [_ Hout].
    split; simpl; try apply Hi; try done.
    intros u Hu. apply (si_tags S Hi). rewrite Hperm. by right.
  - (* time passes *)
    split; simpl; apply Hi.
Qed.

Lemma sys_inv_step S S' : sys_inv S → sys_step S S' → sys_inv S'.
Proof.
  intros Hi Hs. destruct Hs as [s src names t x m' Hsrc Ht Hnt Ha | s fid mode t Hf Ht Hnt
                               | s fid t m' Hb Ht Hnt | s f rest p' Hts Hst
                               | s g k p' Hst Hk | s l p' Hnr Hnw Hst].
  - exact (inv_walk s src names t x m' Hi Hsrc Ht Ha).
  - exact (inv_open s fid mode t Hi Ht).
  - exact (inv_close s fid t m' Hi Hb Ht).
  - inversion Hst; subst. by apply inv_read.
  - inversion Hst; subst. by apply inv_deliver.
  - destruct s as [c p]. by apply (inv_proxy c p l p').
Qed.

Lemma sys_inv_reachable S : rtc sys_step sys0 S → sys_inv S.
Proof.
  revert S. apply rtc_ind_r.
  - apply sys_inv_sys0.
  - intros y z _ Hyz Iy. by apply (sys_inv_step y).
Qed.

End SysFacts.

(** * Fid reuse *)

Module FidReuse.
Import Proxy FidMgr Sys FidFacts SysFacts.

(** Attach, close and attach again: fid 0 is allocated, made active,
    retired, its Rclunk delivered, and it is allocated again. *)
Definition ops_confirm : list Op :=
  [OAllocate; OMarkActive 0; OBeginRetire 0; OConfirmRetire 0; OAllocate].

(** The regression round of TestFidRecycle: walk to fid 1, close it, the
    proxy deletes fid 1 after clunkDelay and answers, and the next walk
    gets fid 1 again. *)
Definition walk2 : Fcall := Sys.twalk 3 0 1 ["file"%string].

Ltac norm_next :=
  match goal with
  | |- rtc _ ?T _ =>
      let T' := eval vm_compute in T in
      replace T with T' by (vm_compute; reflexivity)
  end.

Ltac sys_proxy_step tac :=
  eapply rtc_l; [eapply sy_proxy; [idtac|idtac|tac]; intros ? ?; discriminate|];
  norm_next.

Lemma regression_round :
  ∃ S, rtc sys_step sys0 S ∧ (walk2, rwalk walk2) ∈ log (px S).
Proof.
  eexists. split.
  - (* walk from fid 0 to a new fid, tag 1 *)
    eapply rtc_l; [eapply (sy_walk _ 0 ["file"%string] 1); [reflexivity|reflexivity|discriminate|reflexivity]|].
    norm_next.
    eapply rtc_l; [eapply sy_read; [reflexivity|apply st_read; split; [discriminate|reflexivity]]|].
    norm_next.
    sys_proxy_step ltac:(eapply st_send; [reflexivity|apply Nat.ltb_lt; reflexivity]).
    eapply rtc_l; [eapply sy_deliver; [eapply st_write; reflexivity|reflexivity]|].
    norm_next.
    (* close fid 1, tag 2 *)
    eapply rtc_l; [eapply (sy_close _ 1 2); [reflexivity|reflexivity|discriminate]|].
    norm_next.
    eapply rtc_l; [eapply sy_read; [reflexivity|apply st_read; split; [discriminate|reflexivity]]|].
    norm_next.
    do 5 sys_proxy_step ltac:(apply st_tick).
    sys_proxy_step ltac:(eapply (st_task_delete _ _ 0); [reflexivity|reflexivity|apply Nat.ltb_lt; reflexivity]).
    sys_proxy_step ltac:(eapply (st_task_send _ _ 0); [reflexivity|reflexivity|apply Nat.ltb_lt; reflexivity]).
    eapply rtc_l; [eapply sy_deliver; [eapply st_write; reflexivity|reflexivity]|].
    norm_next.
    (* walk again, tag 3: the manager hands out fid 1 *)
    eapply rtc_l; [eapply (sy_walk _ 0 ["file"%string] 3); [reflexivity|reflexivity|discriminate|reflexivity]|].
    norm_next.
    eapply rtc_l; [eapply sy_read; [reflexivity|apply st_read; split; [discriminate|reflexivity]]|].
    norm_next.
    sys_proxy_step ltac:(eapply st_send; [reflexivity|apply Nat.ltb_lt; reflexivity]).
    apply rtc_refl.
  - apply list_elem_of_In. simpl. repeat (try (left; reflexivity); right).
Qed.

(** C1.  Fid non-reuse.  On one connection (a sequence of manager
    operations from the empty manager with no teardown by
    abortOnDisconnect before the second allocation): if beginRetire(N)
    succeeds at position k and allocate returns N at a later position j,
    then a successful confirmRetire(N), which the client calls when the
    Rclunk is delivered, lies strictly between them.  And in the composed
    client and proxy system (clunkDelay 5ms, started after attach), no
    reachable run, whatever the number of walk, open and close rounds,
    makes the proxy answer any request with an error, so no "duplicate
    fid" rejection occurs. *)
Theorem fid_reuse_after_ack :
  (∀ ops k j N,
     (∀ l, (l < j)%nat → ops !! l ≠ Some OAbort) →
     ops !! k = Some (OBeginRetire N) → (run mgr0 ops).1 !! k = Some Done →
     (k < j)%nat → (run mgr0 ops).1 !! j = Some (Got N) →
     ∃ l, (k < l < j)%nat ∧ ops !! l = Some (OConfirmRetire N) ∧
          (run mgr0 ops).1 !! l = Some Done) ∧
  (∀ S, rtc sys_step sys0 S → ∀ q r, (q, r) ∈ log (px S) → FType r ≠ Rerror).
Proof.
  split.
  - intros ops k j N Hab Hk Hd Hkj Hj.
    destruct (retire_then_confirm mgr0 ops N k j mgr_wf_mgr0 Hk Hd Hkj Hj)
      as (l & Hl & [Ha | Hc]).
    + exfalso. apply (Hab l); [lia | exact Ha].
    + exists l. split; [exact Hl | exact Hc].
  - intros S HS q r Hq. exact (si_log S (sys_inv_reachable S HS) q r Hq).
Qed.

Lemma fid_reuse_after_ack_witness :
  (∃ l, (2 < l < 4)%nat ∧ ops_confirm !! l = Some (OConfirmRetire 0) ∧
        (run mgr0 ops_confirm).1 !! l = Some Done) ∧
  (∃ S, rtc sys_step sys0 S ∧ (walk2, rwalk walk2) ∈ log (px S) ∧
        FType (rwalk walk2) ≠ Rerror).
Proof.
  destruct fid_reuse_after_ack as [H1 H2]. split.
  - apply (H1 ops_confirm 2%nat 4%nat 0).
    + intros l Hl. destruct l as [|[|[|[|l]]]]; try discriminate. lia.
    + reflexivity.
    + reflexivity.
    + lia.
    + reflexivity.
  - destruct regression_round as [S [HS Hl]]. exists S.
    split; [exact HS | split; [exact Hl | exact (H2 S HS _ _ Hl)]].
Defined.

End FidReuse.

(** * More of the proxy: what serve, its goroutines and the sender do over
      a whole run *)

Module ProxyExtra.
Import Proxy ProxyFacts.

(** The frames serve itself answers: the version and attach messages,
    then every frame of the main loop but Tclunk. *)
Definition main_reqs (fs : list Fcall) : list Fcall :=
  take 2 fs ++ filter (λ f, FType f ≠ Tclunk) (drop 2 fs).

(** The Tclunk frames of the main loop. *)
Definition clunk_reqs (fs : list Fcall) : list Fcall :=
  filter (λ f, FType f = Tclunk) (drop 2 fs).

(** The requests answered in [lg] by a reply other than Rclunk, and by
    an Rclunk. *)
Definition served (lg : list (Fcall * Fcall)) : list Fcall :=
  fst <$> filter (λ qr, FType qr.2 ≠ Rclunk) lg.
Definition clunked (lg : list (Fcall * Fcall)) : list Fcall :=
  fst <$> filter (λ qr, FType qr.2 = Rclunk) lg.

Record pinv2 (s : Proxy) : Prop := {
  p2_len1 : phase s = AwaitAttach → length (inlog s) = 1%nat;
  p2_len2 : phase s = Serving → (2 ≤ length (inlog s))%nat;
  p2_stop : phase s = Stopped → pend s = None;
  p2_main : served (log s) ++ (fst <$> option_list (pend s)) = main_reqs (inlog s);
  p2_clunk : clunked (log s) ++ (ct_req <$> tasks s) ≡ₚ clunk_reqs (inlog s);
  p2_seen : clunkSeen s = true ↔ ∃ f, f ∈ drop 2 (inlog s) ∧ FType f = Tclunk;
  p2_fids : ∀ x, x ∈ fids s →
    (∃ f, inlog s !! 1%nat = Some f ∧ Fid f = x) ∨
    (∃ f, f ∈ drop 2 (inlog s) ∧ FType f = Twalk ∧ Newfid f = x) }.

Lemma served_snoc_clunk lg q r :
  FType r = Rclunk → served (lg ++ [(q, r)]) = served lg.
Proof.
  intros H. unfold served. rewrite filter_app, filter_cons_False; [|simpl; tauto].
  by rewrite app_nil_r.
Qed.

Lemma served_snoc_other lg q r :
  FType r ≠ Rclunk → served (lg ++ [(q, r)]) = served lg ++ [q].
Proof.
  intros H. unfold served. rewrite filter_app, filter_cons_True; [|done].
  by rewrite fmap_app.
Qed.

Lemma clunked_snoc_clunk lg q r :
  FType r = Rclunk → clunked (lg ++ [(q, r)]) = clunked lg ++ [q].
Proof.
  intros H. unfold clunked. rewrite filter_app, filter_cons_True; [|done].
  by rewrite fmap_app.
Qed.

Lemma clunked_snoc_other lg q r :
  FType r ≠ Rclunk → clunked (lg ++ [(q, r)]) = clunked lg.
Proof.
  intros H. unfold clunked. rewrite filter_app, filter_cons_False; [|done].
  by rewrite app_nil_r.
Qed.

(** serve's main loop on a frame other than Tclunk: one reply, no
    goroutine, and the table gains at most the walk's newfid. *)
Lemma on_read_serving_other s f :
  phase s = Serving → FType f ≠ Tclunk →
  ∃ fs r, on_read s f = (Serving, fs, Some r, None, clunkSeen s) ∧
    FType r ≠ Rclunk ∧
    (∀ x, x ∈ fs → x ∈ fids s ∨ (FType f = Twalk ∧ x = Newfid f)).
Proof.
  intros Hph Ht. unfold on_read. rewrite Hph.
  destruct (FType f) eqn:E; try congruence;
    try (eexists _, _; split; [reflexivity|]; split; [discriminate|];
         intros x Hx; left; exact Hx).
  destruct (_ && _).
  - eexists _, _. split; [reflexivity|]. split; [discriminate|]. intros x Hx. by left.
  - eexists _, _. split; [reflexivity|]. split; [discriminate|].
    intros x Hx. apply elem_of_union in Hx as [Hx|Hx]; [|by left].
    apply elem_of_singleton in Hx. right. done.
Qed.

Lemma pinv2_init : pinv2 init.
Proof.
  split; simpl; try done.
  split; [discriminate|]. intros (f & Hf & _). inversion Hf.
Qed.

Lemma pinv2_step d s l s' : pinv s → pinv2 s → step d s l s' → pinv2 s'.
Proof.
  intros I J Hs. destruct J as [J1 J2 Js Jm Jc Jseen Jf].
  destruct Hs as [s f Hc | s Hc | s q r Hp Hlen | s i t Hi Hd Hnow
                  | s i t Hi Hd Hlen | s g rest Ha Ho | s g rest Ha Ho | s].
  - (* serve reads f *)
    destruct Hc as [Hns Hpn]. rewrite Hpn in Jm. simpl in Jm. rewrite app_nil_r in Jm.
    destruct (phase s) eqn:Eph.
    + (* the version message *)
      pose proof (pi_v1 _ I Eph) as Hin.
      unfold after_read, on_read. rewrite Eph. rewrite Hin in Jm, Jc, Jseen, Jf.
      split; simpl; rewrite ?Hin; try done;
        try (rewrite Jm; reflexivity); try (rewrite app_nil_r; exact Jc).
    + (* the attach message *)
      specialize (J1 eq_refl).
      destruct (inlog s) as [|q0 [|q1 more]] eqn:Hin; simpl in J1; try lia.
      unfold after_read, on_read. rewrite Eph.
      split; simpl; rewrite ?Hin; try done;
        try (rewrite Jm; reflexivity); try (rewrite app_nil_r; exact Jc).
      intros x Hx. apply elem_of_union in Hx as [Hx|Hx].
      * apply elem_of_singleton in Hx. left. exists f. done.
      * destruct (Jf x Hx) as [(f0 & Hf0 & _)|(f0 & Hf0 & _)];
          simpl in Hf0; [discriminate|inversion Hf0].
    + (* the main loop *)
      specialize (J2 eq_refl).
      assert (Htk : take 2 (inlog s ++ [f]) = take 2 (inlog s)) by (apply take_app_le; lia).
      assert (Hdr : drop 2 (inlog s ++ [f]) = drop 2 (inlog s) ++ [f]) by (apply drop_app_le; lia).
      assert (H1 : (inlog s ++ [f]) !! 1%nat = inlog s !! 1%nat) by (apply lookup_app_l; lia).
      destruct (decide (FType f = Tclunk)) as [Ht|Ht].
      * unfold after_read, on_read. rewrite Eph, Ht.
        split; simpl; try done.
        -- intros _. rewrite length_app. lia.
        -- rewrite app_nil_r, Jm. unfold main_reqs. rewrite Htk, Hdr, filter_app.
           rewrite filter_cons_False; [|tauto]. by rewrite !app_nil_r.
        -- unfold clunk_reqs in *. rewrite Hdr, filter_app, filter_cons_True; [|done].
           rewrite fmap_app, app_assoc. simpl. by apply Permutation_app_tail.
        -- split; [|done]. intros _. exists f. rewrite Hdr, elem_of_app, list_elem_of_singleton. tauto.
        -- intros x Hx. rewrite H1, Hdr.
           destruct (Jf x Hx) as [Ha|(f0 & Hf0 & Hw)]; [by left|].
           right. exists f0. rewrite elem_of_app. tauto.
      * destruct (on_read_serving_other s f Eph Ht) as (fs & r & Eo & Hr & Hfs).
        unfold after_read. rewrite Eo.
        split; simpl; try done.
        -- intros _. rewrite length_app. lia.
        -- rewrite Jm. unfold main_reqs. rewrite Htk, Hdr, filter_app.
           rewrite filter_cons_True; [|done]. by rewrite !app_assoc.
        -- unfold clunk_reqs in *. rewrite Hdr, filter_app, filter_cons_False; [|done].
           by rewrite !app_nil_r.
        -- rewrite Jseen, Hdr. split.
           ++ intros (f0 & Hf0 & Ht0). exists f0. rewrite elem_of_app. tauto.
           ++ intros (f0 & Hf0 & Ht0). exists f0. split; [|done].
              apply elem_of_app in Hf0 as [Hf0|Hf0]; [done|].
              apply list_elem_of_singleton in Hf0. subst. done.
        -- intros x Hx. rewrite H1, Hdr.
           destruct (Hfs x Hx) as [Hx'|[Hw ->]].
           ++ destruct (Jf x Hx') as [Ha|(f0 & Hf0 & Hw)]; [by left|].
              right. exists f0. rewrite elem_of_app. tauto.
           ++ right. exists f. rewrite elem_of_app, list_elem_of_singleton. tauto.
    + done.
  - (* the read fails: serve returns *)
    destruct Hc as [_ Hpn]. rewrite Hpn in Jm.
    split; simpl; done.
  - (* serve sends its reply *)
    destruct (pi_pend _ I q r Hp) as [_ Hr].
    rewrite Hp in Jm. simpl in Jm.
    split; simpl; try done.
    + rewrite served_snoc_other by done. by rewrite app_nil_r.
    + rewrite clunked_snoc_other by done. exact Jc.
  - (* a clunk goroutine deletes its fid *)
    split; simpl; try done.
    + rewrite list_fmap_insert. simpl. rewrite list_insert_id; [exact Jc|].
      by rewrite list_lookup_fmap, Hi.
    + intros x Hx. apply elem_of_difference in Hx as [Hx _]. by apply Jf.
  - (* a clunk goroutine sends Rclunk *)
    split; simpl; try done.
    + by rewrite served_snoc_clunk.
    + rewrite clunked_snoc_clunk by done. rewrite <- app_assoc.
      etrans; [|exact Jc]. apply Permutation_app_head.
      rewrite list_fmap_delete. simpl. symmetry. apply delete_Permutation.
      by rewrite list_lookup_fmap, Hi.
  - split; simpl; done.
  - split; simpl; done.
  - split; simpl; done.
Qed.

Lemma pinv2_reachable d s : reachable d s → pinv2 s.
Proof.
  unfold reachable. revert s. apply rtc_ind_r.
  - apply pinv2_init.
  - intros y z Hy [l Hyz] Jy. eapply pinv2_step; [|exact Jy|exact Hyz].
    apply (pinv_reachable d y Hy).
Qed.

(** serve answers the version message, the attach message and every
    frame of its main loop but Tclunk, each with one reply, in the order
    it read them; the reply to the last frame read may not be sent yet.
    The clunk goroutines send only Rclunk, serve never does. *)
Theorem serve_answers_in_order d s :
  reachable d s →
  (fst <$> filter (λ qr : Fcall * Fcall, FType qr.2 ≠ Rclunk) (log s)) ++
    (fst <$> option_list (pend s)) =
  take 2 (inlog s) ++ filter (λ f, FType f ≠ Tclunk) (drop 2 (inlog s)).
Proof. intros Hr. exact (p2_main _ (pinv2_reachable d s Hr)). Qed.

(** Every Tclunk of the main loop is answered by exactly one Rclunk, or
    its goroutine has not sent it yet; nothing else is answered by an
    Rclunk. *)
Theorem clunk_answered_once d s :
  reachable d s →
  (fst <$> filter (λ qr : Fcall * Fcall, FType qr.2 = Rclunk) (log s)) ++
    (ct_req <$> tasks s) ≡ₚ
  filter (λ f, FType f = Tclunk) (drop 2 (inlog s)).
Proof. intros Hr. exact (p2_clunk _ (pinv2_reachable d s Hr)). Qed.


(** A fid in the table is the fid of the attach message or the newfid of
    a Twalk of the main loop: no other request puts a fid there. *)
Theorem fids_provenance d s x :
  reachable d s → x ∈ fids s →
  (∃ f, inlog s !! 1%nat = Some f ∧ Fid f = x) ∨
  (∃ f, f ∈ drop 2 (inlog s) ∧ FType f = Twalk ∧ Newfid f = x).
Proof. intros Hr Hx. exact (p2_fids _ (pinv2_reachable d s Hr) x Hx). Qed.

Lemma stopped_step d s l s' :
  phase s = Stopped → pend s = None → step d s l s' →
  phase s' = Stopped ∧ pend s' = None ∧ inlog s' = inlog s ∧
  ∃ rs, log s' = log s ++ rs ∧ Forall (λ qr : Fcall * Fcall, FType qr.2 = Rclunk) rs.
Proof.
  intros Hph Hp Hs.
  destruct Hs as [s f Hc | s Hc | s q r Hp' Hlen | s i t Hi Hd Hnow
                  | s i t Hi Hd Hlen | s g rest Ha Ho | s g rest Ha Ho | s];
    try (destruct Hc as [Hc _]; done); try congruence;
    (split; [done|]; split; [done|]; split; [done|]); simpl.
  - exists []. by rewrite app_nil_r.
  - exists [(ct_req t, rclunk (ct_tag t))]. split; [done|]. by constructor.
  - exists []. by rewrite app_nil_r.
  - exists []. by rewrite app_nil_r.
  - exists []. by rewrite app_nil_r.
Qed.

(** After a read fails, serve has returned: the proxy reads no more
    frames, serve sends nothing more, and the only replies still sent are
    the Rclunks of clunk goroutines already started. *)
Theorem serve_stopped_final d s s' :
  reachable d s → phase s = Stopped →
  rtc (λ a b, ∃ l, step d a l b) s s' →
  phase s' = Stopped ∧ pend s' = None ∧ inlog s' = inlog s ∧
  ∃ rs, log s' = log s ++ rs ∧ Forall (λ qr : Fcall * Fcall, FType qr.2 = Rclunk) rs.
Proof.
  intros Hr Hph. pose proof (p2_stop _ (pinv2_reachable d s Hr) Hph) as Hp.
  revert s'. apply rtc_ind_r.
  - split; [done|]. split; [done|]. split; [done|]. exists []. by rewrite app_nil_r.
  - intros y z _ [l Hyz] (Hy1 & Hy2 & Hy3 & rs & Hy4 & Hy5).
    destruct (stopped_step d y l z Hy1 Hy2 Hyz) as (Hz1 & Hz2 & Hz3 & rs' & Hz4 & Hz5).
    split; [done|]. split; [done|]. split; [congruence|].
    exists (rs ++ rs'). split; [by rewrite Hz4, Hy4, app_assoc|].
    by apply Forall_app.
Qed.



(** ** Witnesses *)

Definition px_read_failed : Proxy := after_read_fail px_walked.

Lemma px_read_failed_reachable : reachable 5%nat px_read_failed.
Proof.
  eapply rtc_r; [apply px_walked_reachable|].
  eexists. apply st_read_fail. split; [discriminate|reflexivity].
Qed.

Lemma serve_answers_in_order_witness :
  reachable 5%nat px_clunk_deleted ∧
  (fst <$> filter (λ qr : Fcall * Fcall, FType qr.2 ≠ Rclunk) (log px_clunk_deleted)) ++
    (fst <$> option_list (pend px_clunk_deleted)) =
  take 2 (inlog px_clunk_deleted) ++
    filter (λ f, FType f ≠ Tclunk) (drop 2 (inlog px_clunk_deleted)).
Proof.
  split; [apply px_clunk_deleted_reachable|].
  apply (serve_answers_in_order 5%nat). apply px_clunk_deleted_reachable.
Defined.

Lemma clunk_answered_once_witness :
  reachable 5%nat px_clunk_deleted ∧
  (fst <$> filter (λ qr : Fcall * Fcall, FType qr.2 = Rclunk) (log px_clunk_deleted)) ++
    (ct_req <$> tasks px_clunk_deleted) ≡ₚ
  filter (λ f, FType f = Tclunk) (drop 2 (inlog px_clunk_deleted)).
Proof.
  split; [apply px_clunk_deleted_reachable|].
  apply (clunk_answered_once 5%nat). apply px_clunk_deleted_reachable.
Defined.


Lemma fids_provenance_witness :
  reachable 5%nat px_walked ∧ 1 ∈ fids px_walked ∧
  ((∃ f, inlog px_walked !! 1%nat = Some f ∧ Fid f = 1) ∨
   (∃ f, f ∈ drop 2 (inlog px_walked) ∧ FType f = Twalk ∧ Newfid f = 1)).
Proof.
  assert (Hx : 1 ∈ fids px_walked) by (apply (bool_decide_eq_true_1 (1 ∈ fids px_walked)); vm_compute; reflexivity).
  split; [apply px_walked_reachable|]. split; [exact Hx|].
  apply (fids_provenance 5%nat px_walked 1); [apply px_walked_reachable|exact Hx].
Defined.

Lemma serve_stopped_final_witness :
  reachable 5%nat px_read_failed ∧ phase px_read_failed = Stopped ∧
  phase (after_tick px_read_failed) = Stopped ∧ pend (after_tick px_read_failed) = None ∧
  inlog (after_tick px_read_failed) = inlog px_read_failed ∧
  ∃ rs, log (after_tick px_read_failed) = log px_read_failed ++ rs ∧
        Forall (λ qr : Fcall * Fcall, FType qr.2 = Rclunk) rs.
Proof.
  split; [apply px_read_failed_reachable|]. split; [reflexivity|].
  apply (serve_stopped_final 5%nat px_read_failed).
  - apply px_read_failed_reachable.
  - reflexivity.
  - apply rtc_once. eexists. apply st_tick.
Defined.




End ProxyExtra.

(** * More of acme.Mount and mountAcme *)

Module AcmeExtra.
Import Acme.

Lemma p9p_mount_eq oracle w :
  P9P.Mount oracle w =
  match oracle (length (dials w)) with
  | MSErr e =>
      ((None, Some e),
       {| defaultFsys := defaultFsys w; defaultErr := defaultErr w;
          once_done := once_done w; cheap := cheap w; aheap := aheap w;
          dials := dials w ++ ["acme"%string] |})
  | MSOk c =>
      ((Some (length (aheap w)), None),
       {| defaultFsys := defaultFsys w; defaultErr := defaultErr w;
          once_done := once_done w; cheap := cheap w;
          aheap := aheap w ++ [{| fs := Some c |}];
          dials := dials w ++ ["acme"%string] |})
  end.
Proof.
  unfold P9P.Mount, P9P.MountService, mbind, M_bind.
  destruct (oracle (length (dials w))); reflexivity.
Qed.

(** Non-Plan 9 build: [n] calls to Mount dial "acme" [n] times, leave
    the package defaults and every Fsys allocated before alone; the
    [i]-th call returns the error of the [i]-th dial, or a newly
    allocated Fsys (past every Fsys allocated before) wrapping the
    connection of that dial; no two calls return the same Fsys. *)
Theorem p9p_mounts_fresh oracle n w :
  let '(rs, w') := P9P.mounts oracle n w in
  length rs = n ∧
  dials w' = dials w ++ replicate n "acme"%string ∧
  defaultFsys w' = defaultFsys w ∧ defaultErr w' = defaultErr w ∧
  once_done w' = once_done w ∧ cheap w' = cheap w ∧
  aheap w `prefix_of` aheap w' ∧
  (∀ i r, rs !! i = Some r →
     match oracle (length (dials w) + i)%nat with
     | MSErr e => r = (None, Some e)
     | MSOk c => ∃ p, r = (Some p, None) ∧ (length (aheap w) ≤ p)%nat ∧
                      aheap w' !! p = Some {| fs := Some c |}
     end) ∧
  (∀ i j p, rs !! i = Some (Some p, None) → rs !! j = Some (Some p, None) → i = j).
Proof.
  revert w. induction n as [|n IH]; intros w.
  - simpl. rewrite app_nil_r. repeat split; intros; done.
  - cbn [P9P.mounts]. unfold mbind, M_bind, ret, mret, M_ret.
    rewrite p9p_mount_eq.
    destruct (oracle (length (dials w))) as [c|e] eqn:Eo; cbv beta iota;
      match goal with |- context [P9P.mounts oracle n ?w1] =>
        specialize (IH w1); destruct (P9P.mounts oracle n w1) as [rs w2] end;
      destruct IH as (Hlen & Hd & Hf & He & Ho & Hc & [k Hk] & Hr & Hu);
      simpl in Hd, Hf, He, Ho, Hc, Hk, Hr; rewrite length_app in Hr; simpl in Hr.
    + rewrite <- app_assoc in Hk.
      split; [simpl; lia|]. split; [rewrite Hd, <- app_assoc; done|].
      do 4 (split; [done|]). split; [exists ([{| fs := Some c |}] ++ k); done|].
      split.
      * intros [|i] r Hi; simpl in Hi.
        -- injection Hi as <-. rewrite Nat.add_0_r, Eo. exists (length (aheap w)).
           split; [done|]. split; [lia|]. rewrite Hk, lookup_app_r, Nat.sub_diag; done.
        -- specialize (Hr i r Hi). replace (length (dials w) + S i)%nat with (length (dials w) + 1 + i)%nat by lia.
           destruct (oracle (length (dials w) + 1 + i)%nat); [|done].
           destruct Hr as (q & Hq & Hle & Hl). rewrite length_app in Hle. simpl in Hle.
           exists q. repeat split; [done|lia|done].
      * assert (Hge : ∀ i p, rs !! i = Some (Some p, None) → (length (aheap w) < p)%nat).
        { intros i p Hi. specialize (Hr i _ Hi).
          destruct (oracle (length (dials w) + 1 + i)%nat).
          - destruct Hr as (p' & Hp & Hle & _). injection Hp as ->.
            rewrite length_app in Hle. simpl in Hle. lia.
          - discriminate. }
        intros [|i] [|j] p Hi Hj; simpl in Hi, Hj; try done.
        -- injection Hi as Hi. apply Hge in Hj. lia.
        -- injection Hj as Hj. apply Hge in Hi. lia.
        -- f_equal. eauto.
    + split; [simpl; lia|]. split; [rewrite Hd, <- app_assoc; done|].
      do 4 (split; [done|]). split; [exists k; done|].
      split.
      * intros [|i] r Hi; simpl in Hi.
        -- injection Hi as <-. rewrite Nat.add_0_r, Eo. done.
        -- specialize (Hr i r Hi). replace (length (dials w) + S i)%nat with (length (dials w) + 1 + i)%nat by lia. exact Hr.
      * intros [|i] [|j] p Hi Hj; simpl in Hi, Hj; try done; f_equal; eauto.
Qed.

Lemma do_times_once_done k f w :
  once_done w = true → do_times k (once_do f) w = (tt, w).
Proof.
  intros Hw. induction k as [|k IH]; [reflexivity|].
  cbn [do_times]. unfold mbind, M_bind. unfold once_do at 1. rewrite Hw. exact IH.
Qed.

(** Non-Plan 9 build: from a state where defaultOnce has not run, any
    number of [defaultOnce.Do(mountAcme)] calls dial "acme" once, and
    only once: a failed dial stores its error in defaultErr (defaultFsys
    stays as it was, later calls do not redial), a successful one
    stores a newly allocated Fsys wrapping the connection in
    defaultFsys (defaultErr stays as it was). *)
Theorem p9p_default_once oracle k w :
  once_done w = false → (0 < k)%nat →
  let '(_, w') := do_times k (once_do (P9P.mountAcme oracle)) w in
  dials w' = dials w ++ ["acme"%string] ∧ once_done w' = true ∧
  cheap w' = cheap w ∧
  match oracle (length (dials w)) with
  | MSErr e => defaultErr w' = Some e ∧ defaultFsys w' = defaultFsys w ∧
               aheap w' = aheap w
  | MSOk c => defaultFsys w' = Some (length (aheap w)) ∧
              defaultErr w' = defaultErr w ∧
              aheap w' = aheap w ++ [{| fs := Some c |}]
  end.
Proof.
  intros Hw Hk. destruct k as [|k]; [lia|].
  cbn [do_times]. unfold mbind at 1, M_bind at 1. unfold once_do at 1. rewrite Hw.
  unfold P9P.mountAcme, P9P.MountService, mbind, M_bind. simpl.
  destruct (oracle (length (dials w))) as [c|e]; simpl;
    rewrite do_times_once_done by reflexivity; repeat split.
Qed.

(** ** Witnesses *)

(** A MountService whose every dial fails. *)
Definition dial_refused : nat → MountResult := λ _, MSErr "connection refused"%string.

Lemma p9p_default_once_witness :
  once_done world0 = false ∧ (0 < 3)%nat ∧
  let '(_, w') := do_times 3 (once_do (P9P.mountAcme dial_refused)) world0 in
  dials w' = dials world0 ++ ["acme"%string] ∧ once_done w' = true ∧
  cheap w' = cheap world0 ∧
  match dial_refused (length (dials world0)) with
  | MSErr e => defaultErr w' = Some e ∧ defaultFsys w' = defaultFsys world0 ∧
               aheap w' = aheap world0
  | MSOk c => defaultFsys w' = Some (length (aheap world0)) ∧
              defaultErr w' = defaultErr world0 ∧
              aheap w' = aheap world0 ++ [{| fs := Some c |}]
  end.
Proof.
  split; [reflexivity|]. split; [lia|].
  apply (p9p_default_once dial_refused 3 world0); [reflexivity|lia].
Defined.

End AcmeExtra.
